(** * env: loading environment variables into structs

    A shallow embedding of the Go package [env] (files [env.go] and
    [provider.go]) and the verification of its specification.

    Go strings are byte strings: they are modelled by [string].  The
    destination struct, which the Go code inspects and mutates through
    [reflect], is modelled by a tree of values ([Value]); a [reflect.Value]
    handle to a field of the destination is the path of field indices that
    leads to it.  Errors are values of the inductive type [error]. *)

From Stdlib Require Import Ascii NArith.
From stdpp Require Import base option list sorting strings gmap.

(** ** Errors (env.go, lines 12-41) *)

Inductive error : Type :=
| ErrInvalidArgument
| ErrEmptyTagName
| ErrUnsupportedType
| ErrInvalidTagOption
| Errorf_w_q (wrapped : error) (quoted : string)
    (* fmt.Errorf("%w %q", wrapped, quoted) *)
| NotSetError (Names : list string)
| ConversionError (msg : string).
    (* an error of strconv, time.ParseDuration or a user's UnmarshalText *)

(** [errors.Is]: the error or one of the errors it wraps is the target
    sentinel. *)
Fixpoint errors_Is (e : error) (target : error -> bool) : bool :=
  target e ||
  match e with
  | Errorf_w_q w _ => errors_Is w target
  | _ => false
  end.

Definition isErrInvalidTagOption (e : error) : bool :=
  match e with ErrInvalidTagOption => true | _ => false end.

(** ** Providers (provider.go) *)

Module provider.

(** The [Provider] interface has the single method [LookupEnv]; an interface
    value is its method. *)
Definition Provider : Type := string -> string * bool.

Definition LookupEnv (p : Provider) (key : string) : string * bool := p key.

(** [ProviderFunc] adapts a function. *)
Definition ProviderFunc (f : string -> string * bool) : Provider := f.

(** [OS] delegates to [os.LookupEnv]; the process environment is a finite map. *)
Definition OS (environ : gmap string string) : Provider :=
  ProviderFunc (fun key =>
    match environ !! key with
    | Some value => (value, true)
    | None => ("", false)
    end).

(** [Map.LookupEnv]: [value, ok := m[key]]; a missing key yields the zero
    value of [string]. *)
Definition Map (m : gmap string string) : Provider :=
  fun key =>
    match m !! key with
    | Some value => (value, true)
    | None => ("", false)
    end.

(** The state of the loop of [providers.LookupEnv]: the two local variables,
    and the indices of the providers whose [LookupEnv] has been called. *)
Record lookupState : Type := mkLookupState {
  ls_value : string;
  ls_found : bool;
  ls_calls : list nat
}.

(** [for _, p := range ps { if v, ok := p.LookupEnv(key); ok { ... } }],
    started at the provider of index [i]. *)
Fixpoint providers_range (ps : list Provider) (key : string) (i : nat)
    (st : lookupState) : lookupState :=
  match ps with
  | [] => st
  | p :: rest =>
      let '(v, ok) := LookupEnv p key in
      let calls := ls_calls st ++ [i] in
      if ok
      then providers_range rest key (S i) (mkLookupState v true calls)
      else providers_range rest key (S i)
             (mkLookupState (ls_value st) (ls_found st) calls)
  end.

Definition providers_run (ps : list Provider) (key : string) : lookupState :=
  providers_range ps key 0 (mkLookupState "" false []).

(** [providers.LookupEnv] *)
Definition providers_LookupEnv (ps : list Provider) : Provider :=
  fun key =>
    let st := providers_run ps key in
    (ls_value st, ls_found st).

(** [MultiProvider] *)
Definition MultiProvider (ps : list Provider) : Provider :=
  providers_LookupEnv ps.

End provider.
Export provider.

(** ** Primitives of the Go standard library

    The package calls [strings.Split] and [os.Expand]; both are modelled
    after the standard library.  What the standard library or the user
    provides and the package only calls is gathered in the class [GoLib]:
    the splitting of a string into UTF-8 sequences (the branch of
    [strings.Split] for an empty separator), the parsers of [strconv] and
    [time.ParseDuration], and the [UnmarshalText] methods of user types. *)

Inductive ScalarKind : Type :=
| KBool
| KInt (bits : N)
| KUint (bits : N)
| KFloat (bits : N)
| KString
| KDuration.

Inductive Scalar : Type :=
| SBool (b : bool)
| SInt (z : Z)
| SFloat (ieee : Z)
| SString (s : string).

(** A field of a struct type together with its current value:
    [exported] is [CanSet] of the field of an addressable struct, [envTag]
    is the result of [Tag.Lookup("env")]. *)
Record StructField (V : Type) : Type := mkField {
  exported : bool;
  envTag : option string;
  val : V
}.
Arguments mkField {V} _ _ _.
Arguments exported {V} _.
Arguments envTag {V} _.
Arguments val {V} _.

(** A Go value as [reflect] sees it: its type and its content. *)
#[local] Set Warnings "-register-all".
Inductive Value : Type :=
| VScalar (k : ScalarKind) (x : Scalar)
| VStruct (fields : list (StructField Value))
| VSlice (zero : Value) (elems : list Value)
    (* [zero] is the zero value of the element type *)
| VText (type : string) (underlying : Value)
    (* a named type whose pointer implements encoding.TextUnmarshaler *)
| VOther (type : string).
    (* pointers, maps, channels, functions, arrays, interfaces *)

Class GoLib : Type := {
  explode : string -> list string;
  strconvParse : ScalarKind -> string -> string + Scalar;
  unmarshalText : string -> string -> Value -> string + Value
}.

Module strings.

(** [strings.HasPrefix] *)
Fixpoint HasPrefix (s prefix : string) : bool :=
  match prefix, s with
  | EmptyString, _ => true
  | String _ _, EmptyString => false
  | String c p, String d s' => Ascii.eqb c d && HasPrefix s' p
  end.

(** The loop of [strings.Split] for a non-empty separator, read from left to
    right: [cur] is the piece being collected, [skip] the number of bytes of
    a separator still to be passed over. *)
Fixpoint splitFrom (sep : string) (skip : nat) (cur s : string) : list string :=
  match s with
  | EmptyString => [cur]
  | String c rest =>
      match skip with
      | S k => splitFrom sep k cur rest
      | O =>
          if HasPrefix s sep
          then cur :: splitFrom sep (String.length sep - 1) "" rest
          else splitFrom sep 0 (cur +:+ String c "") rest
      end
  end.

(** [strings.Split] *)
Definition Split `{GoLib} (s sep : string) : list string :=
  if String.eqb sep "" then explode s else splitFrom sep 0 "" s.

(** [strings.Join] *)
Fixpoint Join (elems : list string) (sep : string) : string :=
  match elems with
  | [] => ""
  | [e] => e
  | e :: rest => e +:+ sep +:+ Join rest sep
  end.

End strings.

Module os.

Definition byteIn (c : ascii) (lo hi : ascii) : bool :=
  (N_of_ascii lo <=? N_of_ascii c)%N && (N_of_ascii c <=? N_of_ascii hi)%N.

(** [isShellSpecialVar] *)
Definition isShellSpecialVar (c : ascii) : bool :=
  existsb (Ascii.eqb c)
    (String.list_ascii_of_string "*#$@!?-0123456789").

(** [isAlphaNum] *)
Definition isAlphaNum (c : ascii) : bool :=
  Ascii.eqb c "_"%char || byteIn c "0"%char "9"%char
  || byteIn c "a"%char "z"%char || byteIn c "A"%char "Z"%char.

(** The bytes of [s] before the first ["}"], if there is one. *)
Fixpoint beforeBrace (s : string) : option string :=
  match s with
  | EmptyString => None
  | String c rest =>
      if Ascii.eqb c "}"%char then Some ""
      else match beforeBrace rest with
           | Some name => Some (String c name)
           | None => None
           end
  end.

(** The longest prefix of alphanumerics. *)
Fixpoint alphaNumPrefix (s : string) : string :=
  match s with
  | EmptyString => ""
  | String c rest => if isAlphaNum c then String c (alphaNumPrefix rest) else ""
  end.

(** [getShellName]: the name that begins [s] and the number of bytes
    consumed.  The caller passes a non-empty string. *)
Definition getShellName (s : string) : string * nat :=
  match s with
  | EmptyString => ("", 0)
  | String c0 s1 =>
      if Ascii.eqb c0 "{"%char then
        match s1 with
        | String c1 (String c2 _) =>
            if isShellSpecialVar c1 && Ascii.eqb c2 "}"%char
            then (String c1 "", 3)
            else match beforeBrace s1 with
                 | Some EmptyString => ("", 2)
                 | Some name => (name, String.length name + 2)
                 | None => ("", 1)
                 end
        | _ =>
            match beforeBrace s1 with
            | Some EmptyString => ("", 2)
            | Some name => (name, String.length name + 2)
            | None => ("", 1)
            end
        end
      else if isShellSpecialVar c0 then (String c0 "", 1)
      else let name := alphaNumPrefix s in (name, String.length name)
  end.

(** The loop of [os.Expand], read from left to right: [skip] is the number
    of bytes of a placeholder still to be passed over ([j += w]). *)
Fixpoint expandFrom (mapping : string -> string) (skip : nat) (s : string)
    : string :=
  match s with
  | EmptyString => ""
  | String c rest =>
      match skip with
      | S k => expandFrom mapping k rest
      | O =>
          if Ascii.eqb c "$"%char && negb (String.eqb rest "") then
            let '(name, w) := getShellName rest in
            (if String.eqb name "" && (0 <? w) then ""
             else if String.eqb name "" then String c ""
             else mapping name)
            +:+ expandFrom mapping w rest
          else String c (expandFrom mapping 0 rest)
      end
  end.

(** [os.Expand] *)
Definition Expand (s : string) (mapping : string -> string) : string :=
  expandFrom mapping 0 s.

End os.

(** ** Reflection helpers

    [kindOf], [implements], [structPtr], [setValue] and [setSlice] belong to
    the package but their file is not among the sources; they are modelled
    from the specification. *)

Module reflect.

Inductive Kind : Type := Struct | Slice | Basic | Other.

(** [Value.Kind]: the kind of a named type is the kind of its underlying
    type. *)
Fixpoint KindOf (v : Value) : Kind :=
  match v with
  | VScalar _ _ => Basic
  | VStruct _ => Struct
  | VSlice _ _ => Slice
  | VText _ u => KindOf u
  | VOther _ => Other
  end.

Definition Kind_eqb (a b : Kind) : bool :=
  match a, b with
  | Struct, Struct | Slice, Slice | Basic, Basic | Other, Other => true
  | _, _ => false
  end.

(** [Value.NumField] and [Value.Field] of a value of kind struct. *)
Fixpoint Fields (v : Value) : list (StructField Value) :=
  match v with
  | VStruct fs => fs
  | VText _ u => Fields u
  | _ => []
  end.

(** Rebuilds a value of kind struct from new fields. *)
Fixpoint withFields (g : list (StructField Value) -> list (StructField Value))
    (v : Value) : Value :=
  match v with
  | VStruct fs => VStruct (g fs)
  | VText t u => VText t (withFields g u)
  | _ => v
  end.

(** A handle to a field of the destination: the indices of the fields to go
    through, outermost first. *)
Definition Handle : Type := list nat.

(** The value a handle points to. *)
Fixpoint deref (h : Handle) (root : Value) : option Value :=
  match h with
  | [] => Some root
  | i :: h' =>
      match Fields root !! i with
      | Some f => deref h' (val f)
      | None => None
      end
  end.

(** [Value.Set] through a handle: the value it points to is replaced. *)
Fixpoint assign (h : Handle) (new : Value) (root : Value) : Value :=
  match h with
  | [] => new
  | i :: h' =>
      withFields
        (alter (fun f => mkField (exported f) (envTag f) (assign h' new (val f))) i)
        root
  end.

End reflect.
Export reflect.

(** Modelled from the spec: [kindOf] (reflect helper file missing from the
    sources) tests the kind of the value. *)
Definition kindOf (v : Value) (k : Kind) : bool := Kind_eqb (KindOf v) k.

(** Modelled from the spec: [implements v unmarshalerIface] (reflect helper
    file missing from the sources) tells whether the type of the value
    exposes the textual-unmarshal capability. *)
Definition implements_unmarshalerIface (v : Value) : bool :=
  match v with
  | VText _ _ => true
  | _ => false
  end.

(** The argument [dst interface{}] of [Load] and [LoadFrom]. *)
Inductive Argument : Type :=
| ArgNil                          (* the nil interface *)
| ArgValue (v : Value)            (* a value that is not a pointer *)
| ArgPtr (target : option Value). (* a pointer; [None] is the nil pointer *)

(** Modelled from the spec: [structPtr] (reflect helper file missing from the
    sources) accepts exactly the non-nil pointers to a struct. *)
Definition structPtr (rv : Argument) : bool :=
  match rv with
  | ArgPtr (Some v) => kindOf v Struct
  | _ => false
  end.

Section binder.
Context `{GoLib}.

(** Modelled from the spec: [setValue] (reflect helper file missing from the
    sources) converts the text by the type of the value: a type with the
    textual-unmarshal capability through its [UnmarshalText], a string
    verbatim, the other scalars and durations through the standard parsers;
    anything else is unsupported. *)
Definition setValue (v : Value) (s : string) : error + Value :=
  match v with
  | VText t u =>
      match unmarshalText t s u with
      | inl msg => inl (ConversionError msg)
      | inr u' => inr (VText t u')
      end
  | VScalar KString _ => inr (VScalar KString (SString s))
  | VScalar k _ =>
      match strconvParse k s with
      | inl msg => inl (ConversionError msg)
      | inr x => inr (VScalar k x)
      end
  | _ => inl ErrUnsupportedType
  end.

(** The loop of [setSlice]: every piece is converted into a fresh element,
    the first failure is returned. *)
Fixpoint setElems (zero : Value) (s : list string) : error + list Value :=
  match s with
  | [] => inr []
  | piece :: rest =>
      match setValue zero piece with
      | inl err => inl err
      | inr e =>
          match setElems zero rest with
          | inl err => inl err
          | inr es => inr (e :: es)
          end
      end
  end.

(** Modelled from the spec: [setSlice] (reflect helper file missing from the
    sources) makes a slice of [len(s)] elements, converts each piece by the
    scalar rules, fails on the first conversion error, and then replaces the
    content of the field. *)
Definition setSlice (v : Value) (s : list string) : error + Value :=
  match v with
  | VSlice zero _ =>
      match setElems zero s with
      | inl err => inl err
      | inr es => inr (VSlice zero es)
      end
  | _ => inl ErrUnsupportedType
  end.

End binder.

(** ** The loader (env.go) *)

(** [loader] *)
Record loader : Type := mkLoader {
  provider : Provider;
  prefix : string;
  sliceSep : string
}.

(** [Option]: a function that updates the loader. *)
Definition Option : Type := loader -> loader.

(** [WithPrefix] *)
Definition WithPrefix (prefix : string) : Option :=
  fun l => mkLoader (provider l) prefix (sliceSep l).

(** [WithSliceSeparator] *)
Definition WithSliceSeparator (sep : string) : Option :=
  fun l => mkLoader (provider l) (prefix l) sep.

(** [newLoader] *)
Definition newLoader (p : Provider) (opts : list Option) : loader :=
  fold_left (fun l opt => opt l) opts (mkLoader p "" " ").

(** [variable]: [field] is the handle to the original struct field. *)
Record variable : Type := mkVariable {
  name : string;
  required : bool;
  expand : bool;
  field : Handle
}.

(** [rv.Elem()] *)
Definition Elem (rv : Argument) : option Value :=
  match rv with
  | ArgPtr target => target
  | _ => None
  end.

(** The loop over the options of a tag in [parseVars] (lines 208-218). *)
Fixpoint parseOptions (options : list string) (required expand : bool)
    : error + bool * bool :=
  match options with
  | [] => inr (required, expand)
  | option :: rest =>
      if String.eqb option "required" then parseOptions rest true expand
      else if String.eqb option "expand" then parseOptions rest required true
      else inl (Errorf_w_q ErrInvalidTagOption option)
  end.

Section loader.
Context `{GoLib}.

(** The loop over the fields in [parseVars] (lines 178-226), for the fields
    [fs] that start at index [i] of the struct reached by the handle [h];
    [rec] is the recursive call of [parseVars]. *)
Definition parseFields (rec : Handle -> Value -> error + list variable)
    (l : loader) (h : Handle)
    : list (StructField Value) -> nat -> list variable -> error + list variable :=
  fix loop fs i vars {struct fs} :=
    match fs with
    | [] => inr vars
    | f :: rest =>
        if negb (exported f) then loop rest (S i) vars
        else if kindOf (val f) Struct && negb (implements_unmarshalerIface (val f))
        then
          match rec (h ++ [i]) (val f) with
          | inl err => inl err
          | inr nested => loop rest (S i) (vars ++ nested)
          end
        else
          match envTag f with
          | None => loop rest (S i) vars
          | Some value =>
              let parts := strings.Split value "," in
              let name := hd "" parts in
              let options := tl parts in
              if String.eqb name "" then inl ErrEmptyTagName
              else
                match parseOptions options false false with
                | inl err => inl err
                | inr (required, expand) =>
                    loop rest (S i)
                      (vars ++ [mkVariable (prefix l +:+ name) required expand
                                           (h ++ [i])])
                end
          end
    end.

(** [parseVars]: [v] is a value of kind struct, reached by the handle [h]. *)
Fixpoint parseVars (l : loader) (h : Handle) (v : Value) {struct v}
    : error + list variable :=
  match v with
  | VStruct fs => parseFields (parseVars l) l h fs 0 []
  | VText _ u => parseVars l h u
  | _ => inr []
  end.

(** [lookupEnv] *)
Definition lookupEnv (l : loader) (key : string) (expand : bool)
    : string * bool :=
  let '(value, ok) := LookupEnv (provider l) key in
  if negb ok then ("", false)
  else if negb expand then (value, true)
  else
    let mapping := fun key => let '(v, _) := LookupEnv (provider l) key in v in
    (os.Expand value mapping, true).

(** The conversion of a found value into the field (lines 155-160). *)
Definition bind (l : loader) (fv : Value) (value : string) : error + Value :=
  if kindOf fv Slice && negb (implements_unmarshalerIface fv)
  then setSlice fv (strings.Split value (sliceSep l))
  else setValue fv value.

(** The loop over the variables in [loadVars] (lines 146-164): [root] is the
    destination struct, [notset] the missing required variables so far. *)
Fixpoint loadRange (l : loader) (vars : list variable) (root : Value)
    (notset : list string) : Value * (error + list string) :=
  match vars with
  | [] => (root, inr notset)
  | v :: rest =>
      let '(value, ok) := lookupEnv l (name v) (expand v) in
      if negb ok then
        loadRange l rest root
          (if required v then notset ++ [name v] else notset)
      else
        match deref (field v) root with
        | None => (root, inl ErrUnsupportedType)
            (* not taken: the handles of [parseVars] point to fields *)
        | Some fv =>
            match bind l fv value with
            | inl err => (root, inl err)
            | inr fv' => loadRange l rest (assign (field v) fv' root) notset
            end
        end
  end.

(** [loadVars]: the destination after the call, and the error returned
    ([None] is [nil]). *)
Definition loadVars (l : loader) (dst : Argument) : Argument * option error :=
  if negb (structPtr dst) then (dst, Some ErrInvalidArgument)
  else
    match Elem dst with
    | None => (dst, Some ErrInvalidArgument)
    | Some root =>
        match parseVars l [] root with
        | inl err => (dst, Some err)
        | inr vars =>
            match loadRange l vars root [] with
            | (root', inl err) => (ArgPtr (Some root'), Some err)
            | (root', inr notset) =>
                if 0 <? length notset
                then (ArgPtr (Some root'), Some (NotSetError notset))
                else (ArgPtr (Some root'), None)
            end
        end
    end.

(** [LoadFrom] *)
Definition LoadFrom (p : Provider) (dst : Argument) (opts : list Option)
    : Argument * option error :=
  loadVars (newLoader p opts) dst.

(** [Load]: the provider is [OS], over the environment of the process. *)
Definition Load (environ : gmap string string) (dst : Argument)
    (opts : list Option) : Argument * option error :=
  loadVars (newLoader (OS environ) opts) dst.

End loader.

(** ** A concrete standard library for ASCII text

    Used to run the loader on examples: an empty separator splits after
    every byte, integers are read in decimal, booleans as [true] and
    [false], and the [UnmarshalText] of a user type reads a decimal year into
    a struct of one field. *)

Module ascii_lib.

Fixpoint bytes (s : string) : list string :=
  match s with
  | EmptyString => []
  | String c rest => String c "" :: bytes rest
  end.

Fixpoint digits (s : string) (acc : N) : option N :=
  match s with
  | EmptyString => Some acc
  | String c rest =>
      if os.byteIn c "0"%char "9"%char
      then digits rest (acc * 10 + (N_of_ascii c - 48))%N
      else None
  end.

Definition atoi (s : string) : string + Scalar :=
  match s with
  | EmptyString => inl "invalid syntax"
  | _ =>
      match digits s 0%N with
      | Some n => inr (SInt (Z.of_N n))
      | None => inl "invalid syntax"
      end
  end.

Definition parse (k : ScalarKind) (s : string) : string + Scalar :=
  match k with
  | KInt _ | KUint _ => atoi s
  | KBool =>
      if String.eqb s "true" then inr (SBool true)
      else if String.eqb s "false" then inr (SBool false)
      else inl "invalid syntax"
  | _ => inl "not supported here"
  end.

Definition unmarshal (t s : string) (u : Value) : string + Value :=
  match atoi s with
  | inl msg => inl msg
  | inr year =>
      inr (VStruct [mkField true (Some "YEAR") (VScalar (KInt 64) year)])
  end.

Definition lib : GoLib :=
  {| explode := bytes; strconvParse := parse; unmarshalText := unmarshal |}.

End ascii_lib.


(** ** Values with placeholders

    The words of the specification on expansion are about values made of
    literal text and of placeholders [${NAME}] and [$NAME].  A value is
    described by its list of segments: literal text, placeholders, and the
    dollar signs that start no placeholder. *)

Module placeholders.

Inductive segment : Type :=
| Lit (text : string)
| Brace (NAME : string)   (* written [${NAME}] *)
| Bare (NAME : string)    (* written [$NAME], [NAME] an identifier *)
| Special (c : ascii)     (* written [$c], [c] a special byte: the name is [c] *)
| Dollar                  (* a [$] that starts no name *)
| EmptyBraces             (* the malformed [${}] *)
| OpenBrace.              (* the malformed [${] that no [}] closes *)

Fixpoint allBytes (P : ascii -> bool) (s : string) : bool :=
  match s with
  | EmptyString => true
  | String c rest => P c && allBytes P rest
  end.

Definition render_segment (g : segment) : string :=
  match g with
  | Lit text => text
  | Brace NAME => "${" +:+ NAME +:+ "}"
  | Bare NAME => "$" +:+ NAME
  | Special c => String "$" (String c "")
  | Dollar => "$"
  | EmptyBraces => "${}"
  | OpenBrace => "${"
  end.

(** The text of the value. *)
Fixpoint render (t : list segment) : string :=
  match t with
  | [] => ""
  | g :: rest => render_segment g +:+ render rest
  end.

(** The value with every placeholder replaced by what [mapping] gives for
    its name; a [$] that starts no name is kept, the malformed sequences are
    dropped. *)
Fixpoint substitute (mapping : string -> string) (t : list segment) : string :=
  match t with
  | [] => ""
  | Lit text :: rest => text +:+ substitute mapping rest
  | Brace NAME :: rest => mapping NAME +:+ substitute mapping rest
  | Bare NAME :: rest => mapping NAME +:+ substitute mapping rest
  | Special c :: rest => mapping (String c "") +:+ substitute mapping rest
  | Dollar :: rest => "$" +:+ substitute mapping rest
  | EmptyBraces :: rest => substitute mapping rest
  | OpenBrace :: rest => substitute mapping rest
  end.

(** A name in braces is any non-empty text without a closing brace. *)
Definition braceName (NAME : string) : bool :=
  negb (String.eqb NAME "")
  && allBytes (fun c => negb (Ascii.eqb c "}"%char)) NAME.

(** A bare name is an identifier: letters, digits and underscores, not
    starting with a digit. *)
Definition bareName (NAME : string) : bool :=
  match NAME with
  | EmptyString => false
  | String c _ => negb (os.isShellSpecialVar c) && allBytes os.isAlphaNum NAME
  end.

(** The text that follows a bare name does not continue the identifier. *)
Definition endsName (rest : string) : bool :=
  match rest with
  | EmptyString => true
  | String c _ => negb (os.isAlphaNum c)
  end.

(** The text that follows a [$] starts no name: it is empty, or its first
    byte is neither a brace, nor a special byte, nor part of an identifier. *)
Definition startsNoName (rest : string) : bool :=
  match rest with
  | EmptyString => true
  | String c _ =>
      negb (Ascii.eqb c "{"%char) && negb (os.isShellSpecialVar c)
      && negb (os.isAlphaNum c)
  end.

(** The segments are those that [render] shows: literal text has no dollar
    sign, and names are well delimited. *)
Fixpoint wellFormed (t : list segment) : bool :=
  match t with
  | [] => true
  | Lit text :: rest =>
      allBytes (fun c => negb (Ascii.eqb c "$"%char)) text && wellFormed rest
  | Brace NAME :: rest => braceName NAME && wellFormed rest
  | Bare NAME :: rest =>
      bareName NAME && endsName (render rest) && wellFormed rest
  | Special c :: rest => os.isShellSpecialVar c && wellFormed rest
  | Dollar :: rest => startsNoName (render rest) && wellFormed rest
  | EmptyBraces :: rest => wellFormed rest
  | OpenBrace :: rest =>
      allBytes (fun c => negb (Ascii.eqb c "}"%char)) (render rest)
      && wellFormed rest
  end.

End placeholders.
Export placeholders.

(** The sources that return the empty string for a key they do not find. *)
Definition emptyWhenMissing (p : Provider) : Prop :=
  forall key, (LookupEnv p key).2 = false -> (LookupEnv p key).1 = "".

(** What a source knows of a name: its value when found, else nothing. *)
Definition valueOrEmpty (p : Provider) (NAME : string) : string :=
  let '(v, ok) := LookupEnv p NAME in if ok then v else "".

(** A source that answers a key it does not know with a fallback text and
    [ok = false]. *)
Definition fallbackProvider : Provider :=
  ProviderFunc (fun key =>
    if String.eqb key "ADDR" then ("${HOST}", true) else ("unset", false)).

(** ** Notions used by the statements *)

(** Sequencing of fallible steps: the first error is the result. *)
#[global] Instance result_bind : MBind (sum error) :=
  fun A B k r => match r with inl err => inl err | inr a => k a end.

(** A field that [parseVars] recurses into: a nested struct whose type does
    not expose the textual-unmarshal capability. *)
Definition nestedStruct (v : Value) : bool :=
  kindOf v Struct && negb (implements_unmarshalerIface v).

(** [h1] comes before [h2] in declaration order, depth-first: the two
    handles part at some struct, [h1] through an earlier field. *)
Definition before (h1 h2 : Handle) : Prop :=
  exists common i j r1 r2,
    h1 = common ++ i :: r1 /\ h2 = common ++ j :: r2 /\ i < j.

(** The field a handle points to, with its annotation. *)
Fixpoint fieldAt (h : Handle) (root : Value) : option (StructField Value) :=
  match h with
  | [] => None
  | i :: h' =>
      match Fields root !! i with
      | Some f => match h' with [] => Some f | _ => fieldAt h' (val f) end
      | None => None
      end
  end.

(** The destination with another annotation on the field of handle [h]. *)
Fixpoint retag (h : Handle) (tag : option string) (root : Value) : Value :=
  match h with
  | [] => root
  | i :: h' =>
      withFields
        (alter (fun f =>
                  match h' with
                  | [] => mkField (exported f) tag (val f)
                  | _ => mkField (exported f) (envTag f) (retag h' tag (val f))
                  end) i)
        root
  end.

(** A field that discovery emits as a variable: settable, not a nested
    struct that is recursed into, and annotated. *)
Definition bindable (f : StructField Value) : Prop :=
  exported f = true /\ nestedStruct (val f) = false /\ is_Some (envTag f).

Section discovery.
Context `{GoLib}.

(** Discovery over the fields [fs] that start at index [i] of the struct of
    handle [h], and over a single field. *)
Definition discoverFields (l : loader) (h : Handle) (i : nat)
    (fs : list (StructField Value)) : error + list variable :=
  parseFields (parseVars l) l h fs i [].

Definition discoverField (l : loader) (h : Handle) (i : nat)
    (f : StructField Value) : error + list variable :=
  discoverFields l h i [f].

(** What discovery emits for a field of handle [fh] that is not recursed
    into, from its annotation alone (lines 195-225). *)
Definition tagVariable (l : loader) (fh : Handle) (tag : option string)
    : error + list variable :=
  match tag with
  | None => inr []
  | Some value =>
      let parts := strings.Split value "," in
      if String.eqb (hd "" parts) "" then inl ErrEmptyTagName
      else
        '(required, expand) ← parseOptions (tl parts) false false;
        inr [mkVariable (prefix l +:+ hd "" parts) required expand fh]
  end.

(** The recognized options. *)
Definition recognized (option : string) : Prop :=
  option = "required" \/ option = "expand".

(** Discovery of the struct [v] of handle [h] reaches the field [f], of index
    [i] in the struct of handle [hp]: the fields declared before it, at
    every level, have been discovered without error. *)
Inductive visits (l : loader)
    : Handle -> Value -> Handle -> nat -> StructField Value -> Prop :=
| visits_field h v fs1 f fs2 vs1 :
    Fields v = fs1 ++ f :: fs2 ->
    discoverFields l h 0 fs1 = inr vs1 ->
    visits l h v h (length fs1) f
| visits_nested h v fs1 g fs2 vs1 hp i f :
    Fields v = fs1 ++ g :: fs2 ->
    discoverFields l h 0 fs1 = inr vs1 ->
    exported g = true ->
    nestedStruct (val g) = true ->
    visits l (h ++ [length fs1]) (val g) hp i f ->
    visits l h v hp i f.

(** The variable is not found in the source. *)
Definition notFound (l : loader) (v : variable) : bool :=
  negb (lookupEnv l (name v) (expand v)).2.

(** The names of the required variables that the source does not have, in
    the order of the variables. *)
Definition missing (l : loader) (vars : list variable) : list string :=
  name <$> filter (fun v => required v && notFound l v = true) vars.

(** The errors of discovery. *)
Definition discoveryError (err : error) : Prop :=
  match err with
  | ErrEmptyTagName | Errorf_w_q ErrInvalidTagOption _ => True
  | _ => False
  end.

(** The errors of the binder. *)
Definition binderError (err : error) : Prop :=
  match err with
  | ErrUnsupportedType | ConversionError _ => True
  | _ => False
  end.

End discovery.

(** ** An example destination and source *)

Module example.

Definition source : gmap string string :=
  {[ "PORT" := "8080";
     "ADDR" := "localhost:${PORT}";
     "PORTS" := "8080;8081;8082";
     "SINCE" := "2021" ]}.

(** [struct {
      Port int `env:"PORT"`; Addr string `env:"ADDR,expand"`;
      HTTP struct { Ports []int `env:"PORTS"`; Host string `env:"HOST,required"` } `env:",oops"`;
      Since Stamp `env:"SINCE"`; Name string `env:"NAME"`;
      Key string `env:"KEY,required"`; secret string `env:",required"` }],
    where [Stamp] is a struct type with an [UnmarshalText] method. *)
Definition config : Value :=
  VStruct
    [ mkField true (Some "PORT") (VScalar (KInt 64) (SInt 0));
      mkField true (Some "ADDR,expand") (VScalar KString (SString ""));
      mkField true (Some ",oops")
        (VStruct
           [ mkField true (Some "PORTS") (VSlice (VScalar (KInt 64) (SInt 0)) []);
             mkField true (Some "HOST,required")
               (VScalar KString (SString "localhost")) ]);
      mkField true (Some "SINCE")
        (VText "Stamp"
           (VStruct [mkField true (Some "YEAR") (VScalar (KInt 64) (SInt 0))]));
      mkField true (Some "NAME") (VScalar KString (SString "anonymous"));
      mkField true (Some "KEY,required") (VScalar KString (SString ""));
      mkField false (Some ",required") (VScalar KString (SString "")) ].

Definition l : loader := newLoader (Map source) [WithSliceSeparator ";"].

Definition hostField : StructField Value :=
  mkField true (Some "HOST") (VScalar KString (SString "")).

Definition portField : StructField Value :=
  mkField true (Some "PORT") (VScalar (KInt 64) (SInt 0)).

(** [Key string `env:",required"`]: the name is empty. *)
Definition unnamedField : StructField Value :=
  mkField true (Some ",required") (VScalar KString (SString "")).

(** [Key string `env:"KEY,required,optional,expand"`]: an unknown option. *)
Definition optionalField : StructField Value :=
  mkField true (Some "KEY,required,optional,expand")
    (VScalar KString (SString "")).

(** [key string `env:",required"`]: not exported. *)
Definition hiddenField : StructField Value :=
  mkField false (Some ",required") (VScalar KString (SString "")).

(** [Key string `env:",oops"`]: the name is empty and the option unknown. *)
Definition unnamedOopsField : StructField Value :=
  mkField true (Some ",oops") (VScalar KString (SString "")).

(** [Key string `env:"KEY,optional,unknown"`]: two unknown options. *)
Definition unknownField : StructField Value :=
  mkField true (Some "KEY,optional,unknown") (VScalar KString (SString "")).

(** [key string `env:"KEY,oops"`]: not exported. *)
Definition hiddenOopsField : StructField Value :=
  mkField false (Some "KEY,oops") (VScalar KString (SString "")).

(** [HTTP struct { Host string `env:"HOST"` } `env:"HTTP,oops"`] *)
Definition nestedOopsField : StructField Value :=
  mkField true (Some "HTTP,oops") (VStruct [hostField]).

(** A destination with the field [f] second in a nested struct. *)
Definition nesting (f : StructField Value) : Value :=
  VStruct [ portField; mkField true None (VStruct [ hostField; f ]) ].

End example.

(** ** Notions used by the further properties *)

(** The two options of the package, as data. *)
Inductive setting : Type :=
| SetPrefix (prefix : string)
| SetSliceSeparator (sep : string).

Definition settingOption (s : setting) : Option :=
  match s with
  | SetPrefix prefix => WithPrefix prefix
  | SetSliceSeparator sep => WithSliceSeparator sep
  end.

(** The argument of the last [WithPrefix], of the last
    [WithSliceSeparator], among the settings. *)
Fixpoint lastPrefix (default : string) (ss : list setting) : string :=
  match ss with
  | [] => default
  | SetPrefix prefix :: rest => lastPrefix prefix rest
  | SetSliceSeparator _ :: rest => lastPrefix default rest
  end.

Fixpoint lastSliceSeparator (default : string) (ss : list setting) : string :=
  match ss with
  | [] => default
  | SetPrefix _ :: rest => lastSliceSeparator default rest
  | SetSliceSeparator sep :: rest => lastSliceSeparator sep rest
  end.

(** The later of two answers of sources: the second when it is found. *)
Definition override (first second : string * bool) : string * bool :=
  if second.2 then second else first.

(** The field [f] is one that discovery is to emit: it is reached from the
    struct [v] by the (relative) handle [h] through settable nested structs
    that are recursed into, and it is bindable. *)
Inductive discoverable : Handle -> Value -> StructField Value -> Prop :=
| discoverable_field i v f :
    Fields v !! i = Some f ->
    bindable f ->
    discoverable [i] v f
| discoverable_nested i h v g f :
    Fields v !! i = Some g ->
    exported g = true ->
    nestedStruct (val g) = true ->
    discoverable h (val g) f ->
    discoverable (i :: h) v f.

(** The field [f] is reached from the struct [v] by the handle [h] through
    settable nested structs that are recursed into. *)
Inductive reached : Handle -> Value -> StructField Value -> Prop :=
| reached_field i v f :
    Fields v !! i = Some f ->
    reached [i] v f
| reached_nested i h v g f :
    Fields v !! i = Some g ->
    exported g = true ->
    nestedStruct (val g) = true ->
    reached h (val g) f ->
    reached (i :: h) v f.

(** A field that discovery passes over: it is not settable, or it is a leaf
    without annotation. *)
Definition ignored (f : StructField Value) : Prop :=
  exported f = false \/ (nestedStruct (val f) = false /\ envTag f = None).

(** The variable with a prefix put before its name. *)
Definition prefixed (prefix : string) (x : variable) : variable :=
  mkVariable (prefix +:+ name x) (required x) (expand x) (field x).

(** The loader with another prefix. *)
Definition withPrefix (prefix : string) (l : loader) : loader :=
  mkLoader (provider l) prefix (sliceSep l).

(** A text without the byte [c]. *)
Definition without (c : ascii) (s : string) : bool :=
  allBytes (fun d => negb (Ascii.eqb c d)) s.

(** A source in which the second of the ports is not a number. *)
Definition typoSource : gmap string string :=
  {[ "PORT" := "8080"; "PORTS" := "80;x;82"; "NAME" := "gopher" ]}.

(** The variables that discovery finds in [example.config]. *)
Definition configVars : list variable :=
  [ mkVariable "PORT" false false [0];
    mkVariable "ADDR" false true [1];
    mkVariable "PORTS" false false [2; 0];
    mkVariable "HOST" true false [2; 1];
    mkVariable "SINCE" false false [3];
    mkVariable "NAME" false false [4];
    mkVariable "KEY" true false [5] ].
(** * Verification *)

(** ** The merge combinator *)

Section providers_facts.

Implicit Types (ps : list Provider) (key : string) (st : lookupState).

Lemma providers_range_app ps1 ps2 key i st :
  providers_range (ps1 ++ ps2) key i st
  = providers_range ps2 key (i + length ps1) (providers_range ps1 key i st).
Proof.
  revert i st.
  induction ps1 as [|p ps1 IH]; intros i st; simpl.
  - by rewrite Nat.add_0_r.
  - replace (i + S (length ps1)) with (S i + length ps1) by lia.
    destruct (LookupEnv p key) as [v []]; by rewrite IH.
Qed.

Lemma providers_range_calls ps key i st :
  ls_calls (providers_range ps key i st) = ls_calls st ++ seq i (length ps).
Proof.
  revert i st.
  induction ps as [|p ps IH]; intros i st; simpl.
  - by rewrite app_nil_r.
  - destruct (LookupEnv p key) as [v []]; rewrite IH; simpl;
      by rewrite <- app_assoc.
Qed.

Lemma providers_range_none ps key i st :
  Forall (fun q => (LookupEnv q key).2 = false) ps ->
  ls_value (providers_range ps key i st) = ls_value st
  /\ ls_found (providers_range ps key i st) = ls_found st.
Proof.
  intros Hall. revert i st.
  induction Hall as [|q ps Hq _ IH]; intros i st; simpl; [done|].
  destruct (LookupEnv q key) as [v ok]; simpl in Hq; subst ok.
  by destruct (IH (S i) (mkLookupState (ls_value st) (ls_found st)
                        (ls_calls st ++ [i]))) as [-> ->].
Qed.

Lemma providers_range_found ps key i st :
  ls_found (providers_range ps key i st)
  = ls_found st || existsb (fun q => (LookupEnv q key).2) ps.
Proof.
  revert i st.
  induction ps as [|p ps IH]; intros i st; simpl.
  - by rewrite orb_false_r.
  - destruct (LookupEnv p key) as [v []]; rewrite IH; simpl.
    + by rewrite orb_true_r.
    + done.
Qed.

End providers_facts.

(** C2: the lookup of the merge combinator calls every source, in order; it
    reports found exactly when some source does; its value is the value of
    the last source that reports found (the empty string when none does). *)
Theorem MultiProvider_last_found_wins (ps : list Provider) (key : string) :
  ls_calls (providers_run ps key) = seq 0 (length ps)
  /\ ((LookupEnv (MultiProvider ps) key).2 = true
      <-> exists p, p ∈ ps /\ (LookupEnv p key).2 = true)
  /\ (forall before p after,
        ps = before ++ p :: after ->
        (LookupEnv p key).2 = true ->
        Forall (fun q => (LookupEnv q key).2 = false) after ->
        LookupEnv (MultiProvider ps) key = ((LookupEnv p key).1, true))
  /\ ((LookupEnv (MultiProvider ps) key).2 = false ->
      LookupEnv (MultiProvider ps) key = ("", false)).
Proof.
  unfold MultiProvider, providers_LookupEnv, LookupEnv at 1 5 7 8, providers_run.
  split; [|split; [|split]].
  - by rewrite providers_range_calls.
  - simpl. rewrite providers_range_found. simpl.
    rewrite existsb_exists. split.
    + intros (p & Hin & Hp). exists p. by rewrite list_elem_of_In.
    + intros (p & Hin & Hp). exists p. by rewrite <- list_elem_of_In.
  - intros before p after -> Hp Hafter.
    rewrite providers_range_app. simpl.
    destruct (LookupEnv p key) as [v ok] eqn:E; simpl in Hp; subst ok.
    match goal with |- context [providers_range after key ?j ?s] =>
      destruct (providers_range_none after key j s Hafter) as [-> ->] end.
    done.
  - simpl. intros Hnot.
    assert (Hall : Forall (fun q => (LookupEnv q key).2 = false) ps).
    { rewrite providers_range_found in Hnot. simpl in Hnot.
      apply Forall_forall. intros q Hq.
      destruct (LookupEnv q key).2 eqn:E; [|done].
      assert (existsb (fun q => (LookupEnv q key).2) ps = true) as Hex
        by (apply existsb_exists; exists q; by rewrite <- list_elem_of_In).
      congruence. }
    match goal with |- context [providers_range ps key ?j ?s] =>
      destruct (providers_range_none ps key j s Hall) as [-> ->] end.
    done.
Qed.

Lemma MultiProvider_last_found_wins_witness :
  LookupEnv (MultiProvider [ Map {[ "PORT" := "80" ]};
                             Map {[ "PORT" := "8080"; "HOST" := "a" ]};
                             Map {[ "HOST" := "b" ]} ]) "PORT"
  = ("8080", true).
Proof.
  destruct (MultiProvider_last_found_wins
              [ Map {[ "PORT" := "80" ]};
                Map {[ "PORT" := "8080"; "HOST" := "a" ]};
                Map {[ "HOST" := "b" ]} ] "PORT") as (_ & _ & Hlast & _).
  rewrite (Hlast [Map {[ "PORT" := "80" ]}]
                 (Map {[ "PORT" := "8080"; "HOST" := "a" ]})
                 [Map {[ "HOST" := "b" ]}] eq_refl eq_refl);
    [reflexivity|repeat constructor].
Defined.

(** ** Strings *)

Section string_facts.

Implicit Types (s t u : string) (c : ascii).

Lemma append_nil_l s : "" +:+ s = s.
Proof. done. Qed.

Lemma append_cons c s t : String c s +:+ t = String c (s +:+ t).
Proof. done. Qed.

Lemma append_nil_r s : s +:+ "" = s.
Proof. induction s as [|c s IH]; [done|]. by rewrite append_cons, IH. Qed.

Lemma append_assoc s t u : (s +:+ t) +:+ u = s +:+ t +:+ u.
Proof. induction s as [|c s IH]; [done|]. by rewrite !append_cons, IH. Qed.

Lemma length_append s t :
  String.length (s +:+ t) = String.length s + String.length t.
Proof.
  induction s as [|c s IH]; [done|].
  rewrite append_cons. simpl. by rewrite IH.
Qed.

End string_facts.

(** Pushes the constructors of a string out of an append. *)
Ltac norm_append :=
  repeat first [rewrite append_cons | rewrite append_nil_l].

(** ** Expansion *)

Section expand_facts.

Variable mapping : string -> string.

Implicit Types (s rest NAME : string) (c : ascii) (t : list segment).

Lemma expandFrom_S k c rest :
  os.expandFrom mapping (S k) (String c rest) = os.expandFrom mapping k rest.
Proof. done. Qed.

Lemma expandFrom_other c rest :
  Ascii.eqb c "$" = false ->
  os.expandFrom mapping 0 (String c rest)
  = String c (os.expandFrom mapping 0 rest).
Proof. intros Hc. simpl. by rewrite Hc. Qed.

Lemma expandFrom_dollar c rest NAME w :
  os.getShellName (String c rest) = (NAME, w) ->
  NAME <> "" ->
  os.expandFrom mapping 0 (String "$" (String c rest))
  = mapping NAME +:+ os.expandFrom mapping w (String c rest).
Proof.
  intros Hname Hne.
  apply String.eqb_neq in Hne.
  change (os.expandFrom mapping 0 (String "$" (String c rest)))
    with (let '(name, w) := os.getShellName (String c rest) in
          (if String.eqb name "" && (0 <? w) then ""
           else if String.eqb name "" then "$"
           else mapping name)
          +:+ os.expandFrom mapping w (String c rest)).
  by rewrite Hname, Hne.
Qed.

Lemma expandFrom_skip s rest :
  os.expandFrom mapping (String.length s) (s +:+ rest)
  = os.expandFrom mapping 0 rest.
Proof.
  induction s as [|c s IH]; [done|].
  by rewrite append_cons.
Qed.

Lemma expandFrom_literal s rest :
  allBytes (fun c => negb (Ascii.eqb c "$"%char)) s = true ->
  os.expandFrom mapping 0 (s +:+ rest) = s +:+ os.expandFrom mapping 0 rest.
Proof.
  induction s as [|c s IH]; [done|].
  cbn [allBytes]. intros [Hc Hs]%andb_prop.
  apply negb_true_iff in Hc.
  by rewrite !append_cons, (expandFrom_other _ _ Hc), IH.
Qed.

Lemma beforeBrace_name NAME rest :
  allBytes (fun c => negb (Ascii.eqb c "}"%char)) NAME = true ->
  os.beforeBrace (NAME +:+ String "}" rest) = Some NAME.
Proof.
  induction NAME as [|c NAME IH]; [done|].
  cbn [allBytes]. intros [Hc Hs]%andb_prop.
  apply negb_true_iff in Hc.
  rewrite append_cons. cbn [os.beforeBrace]. by rewrite Hc, IH.
Qed.

Lemma getShellName_brace NAME rest :
  braceName NAME = true ->
  os.getShellName (String "{" (NAME +:+ String "}" rest))
  = (NAME, String.length NAME + 2).
Proof.
  unfold braceName. intros [Hne Hall]%andb_prop.
  destruct NAME as [|c1 NAME]; [done|]. clear Hne.
  pose proof (beforeBrace_name _ rest Hall) as Hb.
  unfold os.getShellName.
  replace (Ascii.eqb "{" "{") with true by done.
  rewrite Hb. simpl in Hall. apply andb_prop in Hall as [Hc1 Hall].
  rewrite append_cons.
  destruct NAME as [|c2 NAME].
  - rewrite append_nil_l.
    by destruct (os.isShellSpecialVar c1).
  - simpl in Hall. apply andb_prop in Hall as [Hc2 _].
    apply negb_true_iff in Hc2.
    rewrite append_cons, Hc2, andb_false_r. done.
Qed.

Lemma alphaNumPrefix_name NAME rest :
  allBytes os.isAlphaNum NAME = true ->
  endsName rest = true ->
  os.alphaNumPrefix (NAME +:+ rest) = NAME.
Proof.
  intros Hall Hend.
  induction NAME as [|c NAME IH].
  - rewrite append_nil_l.
    destruct rest as [|c rest]; simpl in *; [done|].
    apply negb_true_iff in Hend. by rewrite Hend.
  - simpl in Hall. apply andb_prop in Hall as [Hc Hall].
    rewrite append_cons. simpl. by rewrite Hc, IH.
Qed.

Lemma isAlphaNum_not_brace c : os.isAlphaNum c = true -> Ascii.eqb c "{" = false.
Proof.
  intros Hc. destruct (Ascii.eqb_spec c "{"%char) as [->|]; [|done].
  by vm_compute in Hc.
Qed.

Lemma getShellName_bare NAME rest :
  bareName NAME = true ->
  endsName rest = true ->
  os.getShellName (NAME +:+ rest) = (NAME, String.length NAME).
Proof.
  unfold bareName. intros Hname Hend.
  destruct NAME as [|c0 NAME]; [done|].
  apply andb_prop in Hname as [Hc0 Hall].
  apply negb_true_iff in Hc0.
  pose proof (alphaNumPrefix_name _ rest Hall Hend) as Hp.
  simpl in Hall. apply andb_prop in Hall as [Hal _].
  rewrite append_cons in *.
  unfold os.getShellName.
  by rewrite (isAlphaNum_not_brace _ Hal), Hc0, Hp.
Qed.

Lemma expandFrom_dollar_step c rest :
  os.expandFrom mapping 0 (String "$" (String c rest))
  = (let '(name, w) := os.getShellName (String c rest) in
     (if String.eqb name "" && (0 <? w) then ""
      else if String.eqb name "" then "$"
      else mapping name)
     +:+ os.expandFrom mapping w (String c rest)).
Proof. done. Qed.

Lemma isShellSpecialVar_not_brace c :
  os.isShellSpecialVar c = true -> Ascii.eqb c "{" = false.
Proof.
  intros Hc. destruct (Ascii.eqb_spec c "{"%char) as [->|]; [|done].
  by vm_compute in Hc.
Qed.

Lemma getShellName_special c rest :
  os.isShellSpecialVar c = true ->
  os.getShellName (String c rest) = (String c "", 1).
Proof.
  intros Hc. unfold os.getShellName.
  by rewrite (isShellSpecialVar_not_brace _ Hc), Hc.
Qed.

Lemma getShellName_no_name c rest :
  startsNoName (String c rest) = true ->
  os.getShellName (String c rest) = ("", 0).
Proof.
  cbn [startsNoName].
  intros [[Hb%negb_true_iff Hs%negb_true_iff]%andb_prop
            Ha%negb_true_iff]%andb_prop.
  unfold os.getShellName. rewrite Hb, Hs.
  cbn [os.alphaNumPrefix]. by rewrite Ha.
Qed.

Lemma getShellName_empty_braces rest :
  os.getShellName (String "{" (String "}" rest)) = ("", 2).
Proof. by destruct rest. Qed.

Lemma beforeBrace_none s :
  allBytes (fun c => negb (Ascii.eqb c "}"%char)) s = true ->
  os.beforeBrace s = None.
Proof.
  induction s as [|c s IH]; [done|].
  cbn [allBytes os.beforeBrace].
  intros [Hc%negb_true_iff Hs]%andb_prop.
  by rewrite Hc, IH.
Qed.

Lemma getShellName_open_brace rest :
  allBytes (fun c => negb (Ascii.eqb c "}"%char)) rest = true ->
  os.getShellName (String "{" rest) = ("", 1).
Proof.
  intros Hrest. unfold os.getShellName.
  replace (Ascii.eqb "{" "{") with true by done.
  rewrite (beforeBrace_none _ Hrest).
  destruct rest as [|c1 [|c2 rest]]; [done..|].
  cbn [allBytes] in Hrest.
  apply andb_prop in Hrest as [_ [Hc2%negb_true_iff _]%andb_prop].
  by rewrite Hc2, andb_false_r.
Qed.

(** [os.Expand] on a well-formed value replaces each placeholder by the
    result of [mapping] on its name, keeps the literal text and the dollar
    signs that start no name, and drops the malformed sequences. *)
Lemma Expand_render t :
  wellFormed t = true ->
  os.Expand (render t) mapping = substitute mapping t.
Proof.
  unfold os.Expand.
  induction t as [|g t IH]; [done|].
  destruct g as [text|NAME|NAME|c| | |];
    cbn [wellFormed render render_segment substitute].
  - intros [Htext Ht]%andb_prop.
    by rewrite expandFrom_literal, IH.
  - intros [Hname Ht]%andb_prop.
    pose proof Hname as [Hne%negb_true_iff%String.eqb_neq _]%andb_prop.
    rewrite !append_cons, append_nil_l, append_assoc, !append_cons,
      append_nil_l.
    rewrite (expandFrom_dollar "{" (NAME +:+ String "}" (render t)) NAME
               (String.length NAME + 2)); [|..|done].
    + rewrite <- (IH Ht). f_equal.
      replace (String.length NAME + 2)
        with (String.length (String "{" (NAME +:+ "}")))
        by (simpl; rewrite length_append; simpl; lia).
      rewrite <- (expandFrom_skip (String "{" (NAME +:+ "}")) (render t)).
      by rewrite !append_cons, append_assoc.
    + by apply getShellName_brace.
  - intros [[Hname Hend]%andb_prop Ht]%andb_prop.
    destruct NAME as [|c NAME]; [done|].
    norm_append.
    rewrite (expandFrom_dollar c (NAME +:+ render t) (String c NAME)
               (String.length (String c NAME))); [|..|done].
    + rewrite <- (IH Ht). f_equal.
      by rewrite <- (expandFrom_skip (String c NAME) (render t)).
    + rewrite <- append_cons. by apply getShellName_bare.
  - intros [Hc Ht]%andb_prop.
    norm_append.
    rewrite (expandFrom_dollar c (render t) (String c "") 1); [|..|done].
    + by rewrite expandFrom_S, (IH Ht).
    + by apply getShellName_special.
  - intros [Hrest Ht]%andb_prop.
    norm_append. rewrite <- (IH Ht).
    destruct (render t) as [|c rest] eqn:Er; [done|].
    by rewrite expandFrom_dollar_step, (getShellName_no_name _ _ Hrest).
  - intros Ht.
    norm_append. rewrite <- (IH Ht).
    by rewrite expandFrom_dollar_step, getShellName_empty_braces.
  - intros [Hrest Ht]%andb_prop.
    norm_append. rewrite <- (IH Ht).
    by rewrite expandFrom_dollar_step, (getShellName_open_brace _ Hrest).
Qed.

(** Every value reads as a well-formed list of segments. *)
Lemma beforeBrace_some s NAME :
  os.beforeBrace s = Some NAME ->
  allBytes (fun c => negb (Ascii.eqb c "}"%char)) NAME = true
  /\ exists rest, s = NAME +:+ String "}" rest.
Proof.
  revert NAME.
  induction s as [|c s IH]; intros NAME; [done|].
  cbn [os.beforeBrace].
  destruct (Ascii.eqb_spec c "}"%char) as [->|Hc].
  - intros [= <-]. split; [done|]. by exists s.
  - destruct (os.beforeBrace s) as [name|]; [|done].
    intros [= <-]. destruct (IH name eq_refl) as [Hname [rest ->]].
    split; [|by exists rest].
    cbn [allBytes]. rewrite Hname, andb_true_r.
    by apply negb_true_iff, Ascii.eqb_neq.
Qed.

Lemma beforeBrace_absent s :
  os.beforeBrace s = None ->
  allBytes (fun c => negb (Ascii.eqb c "}"%char)) s = true.
Proof.
  induction s as [|c s IH]; [done|].
  cbn [os.beforeBrace allBytes].
  destruct (Ascii.eqb c "}"); [done|].
  destruct (os.beforeBrace s); [done|]. intros _. by apply IH.
Qed.

Lemma alphaNumPrefix_split s :
  allBytes os.isAlphaNum (os.alphaNumPrefix s) = true
  /\ exists rest, s = os.alphaNumPrefix s +:+ rest /\ endsName rest = true.
Proof.
  induction s as [|c s [IHa (rest & IHs & IHr)]].
  - split; [done|]. by exists "".
  - cbn [os.alphaNumPrefix].
    destruct (os.isAlphaNum c) eqn:Hc.
    + split; [cbn [allBytes]; by rewrite Hc|].
      exists rest. split; [|done]. by rewrite append_cons, <- IHs.
    + split; [done|]. exists (String c s). split; [done|].
      cbn [endsName]. by rewrite Hc.
Qed.

Lemma readable s : exists t, wellFormed t = true /\ render t = s.
Proof.
  remember (String.length s) as n eqn:Hn.
  revert s Hn.
  induction n as [n IH] using lt_wf_ind; intros s ->.
  assert (Hshorter : forall r, String.length r < String.length s ->
                               exists t, wellFormed t = true /\ render t = r)
    by (intros r Hr; by apply (IH _ Hr)).
  clear IH.
  destruct s as [|c rest]; [by exists []|].
  destruct (Ascii.eqb_spec c "$"%char) as [->|Hc].
  2:{ destruct (Hshorter rest) as (t & Ht & Hr); [simpl; lia|].
      exists (Lit (String c "") :: t).
      cbn [wellFormed render render_segment allBytes].
      apply Ascii.eqb_neq in Hc. rewrite Hc, Ht, Hr. done. }
  destruct rest as [|c0 s1]; [by exists [Dollar]|].
  destruct (Ascii.eqb_spec c0 "{"%char) as [->|Hbrace].
  { destruct (os.beforeBrace s1) as [NAME|] eqn:Eb.
    - destruct (beforeBrace_some _ _ Eb) as [Hname [r ->]].
      destruct (Hshorter r) as (t & Ht & Hr);
        [simpl; rewrite length_append; simpl; lia|].
      destruct NAME as [|c1 NAME].
      + exists (EmptyBraces :: t).
        cbn [wellFormed render render_segment]. by rewrite Ht, Hr.
      + exists (Brace (String c1 NAME) :: t).
        cbn [wellFormed render render_segment].
        unfold braceName. rewrite Hname, Ht, Hr. split; [done|].
        norm_append. by rewrite append_assoc.
    - apply beforeBrace_absent in Eb.
      destruct (Hshorter s1) as (t & Ht & Hr); [simpl; lia|].
      exists (OpenBrace :: t).
      cbn [wellFormed render render_segment]. by rewrite Ht, Hr, Eb. }
  destruct (os.isShellSpecialVar c0) eqn:Hspecial.
  { destruct (Hshorter s1) as (t & Ht & Hr); [simpl; lia|].
    exists (Special c0 :: t).
    cbn [wellFormed render render_segment]. by rewrite Ht, Hr, Hspecial. }
  destruct (os.isAlphaNum c0) eqn:Halnum.
  - destruct (alphaNumPrefix_split (String c0 s1)) as [Hall (r & Hsplit & Hend)].
    cbn [os.alphaNumPrefix] in Hall, Hsplit. rewrite Halnum in Hall, Hsplit.
    destruct (Hshorter r) as (t & Ht & Hr).
    { rewrite Hsplit. rewrite append_cons. simpl.
      rewrite length_append. lia. }
    exists (Bare (String c0 (os.alphaNumPrefix s1)) :: t).
    cbn [wellFormed render render_segment].
    unfold bareName. rewrite Hspecial, Hall, Ht, Hr, Hend. split; [done|].
    norm_append. by rewrite <- append_cons, <- Hsplit.
  - destruct (Hshorter (String c0 s1)) as (t & Ht & Hr); [simpl; lia|].
    exists (Dollar :: t).
    cbn [wellFormed render render_segment]. rewrite Ht, Hr.
    split; [|done]. cbn [startsNoName].
    apply Ascii.eqb_neq in Hbrace. by rewrite Hbrace, Hspecial, Halnum.
Qed.

End expand_facts.

(** The built-in sources return the empty string for a missing key. *)
Lemma Map_emptyWhenMissing (m : gmap string string) : emptyWhenMissing (Map m).
Proof. intros key. unfold LookupEnv, Map. by destruct (m !! key). Qed.

Lemma OS_emptyWhenMissing (environ : gmap string string) :
  emptyWhenMissing (OS environ).
Proof.
  intros key. unfold LookupEnv, OS, ProviderFunc. by destruct (environ !! key).
Qed.

Lemma MultiProvider_emptyWhenMissing (ps : list Provider) :
  emptyWhenMissing (MultiProvider ps).
Proof.
  intros key Hnot.
  unfold MultiProvider, providers_LookupEnv, LookupEnv at 1, providers_run.
  unfold MultiProvider, providers_LookupEnv, LookupEnv at 1, providers_run
    in Hnot.
  simpl in *.
  rewrite providers_range_found in Hnot. simpl in Hnot.
  assert (Hall : Forall (fun q => (LookupEnv q key).2 = false) ps).
  { apply Forall_forall. intros q Hq.
    destruct (LookupEnv q key).2 eqn:E; [|done].
    assert (existsb (fun q => (LookupEnv q key).2) ps = true) as Hex
      by (apply existsb_exists; exists q; by rewrite <- list_elem_of_In).
    congruence. }
  match goal with |- context [providers_range ps key ?j ?s] =>
    by destruct (providers_range_none ps key j s Hall) as [-> _] end.
Qed.

Lemma substitute_ext (f g : string -> string) (t : list segment) :
  (forall NAME, f NAME = g NAME) -> substitute f t = substitute g t.
Proof.
  intros Hfg. induction t as [|[text|NAME|NAME|c| | |] t IH]; simpl;
    by rewrite ?Hfg, ?IH.
Qed.

(** C3 (as amended): when the key is found, [lookupEnv] without [expand]
    returns the value verbatim; with [expand], every placeholder [${NAME}]
    and [$NAME] of the value is replaced by the value that the same source
    returns for [NAME], whatever its found flag, and never fails; for a
    source that returns the empty string with a key it does not find, as
    the built-in sources do, a placeholder whose name is not found is thus
    replaced by the empty string.  This holds of every value: each value
    reads as literal text, placeholders, dollar signs that start no name
    (kept) and malformed [${}] and [${] (dropped). *)
Theorem lookupEnv_expand (l : loader) (key value : string) :
  LookupEnv (provider l) key = (value, true) ->
  lookupEnv l key false = (value, true)
  /\ (exists t, wellFormed t = true /\ value = render t)
  /\ (forall t,
        wellFormed t = true -> value = render t ->
        lookupEnv l key true
        = (substitute (fun NAME => (LookupEnv (provider l) NAME).1) t, true)
        /\ (emptyWhenMissing (provider l) ->
            lookupEnv l key true
            = (substitute (valueOrEmpty (provider l)) t, true))).
Proof.
  intros Hkey. unfold lookupEnv. rewrite Hkey. simpl.
  split; [done|].
  split; [destruct (readable value) as (t & Ht & Hr); by exists t|].
  intros t Ht ->.
  rewrite (Expand_render _ t Ht).
  split; [done|].
  intros Hempty. f_equal. apply substitute_ext. intros NAME.
  unfold valueOrEmpty.
  specialize (Hempty NAME).
  destruct (LookupEnv (provider l) NAME) as [v []]; simpl in *; auto.
Qed.

Lemma lookupEnv_expand_witness :
  let l := mkLoader (Map {[ "PORT" := "8080";
                            "ADDR" := "localhost:${PORT}";
                            "ITEM" := "tea";
                            "PRICE" := "50$ for ${ITEM} and $ITEM$" ]})
             "" " " in
  lookupEnv l "ADDR" false = ("localhost:${PORT}", true)
  /\ lookupEnv l "ADDR" true = ("localhost:8080", true)
  /\ lookupEnv l "PRICE" true = ("50$ for tea and tea$", true).
Proof.
  intros l.
  destruct (lookupEnv_expand l "ADDR" "localhost:${PORT}" eq_refl)
    as (Hverbatim & _ & Hexpand).
  split; [exact Hverbatim|].
  destruct (Hexpand [Lit "localhost:"; Brace "PORT"] eq_refl eq_refl)
    as [Hvalue _].
  split; [exact Hvalue|].
  destruct (lookupEnv_expand l "PRICE" "50$ for ${ITEM} and $ITEM$" eq_refl)
    as (_ & _ & Hprice).
  destruct (Hprice [ Lit "50"; Dollar; Lit " for "; Brace "ITEM";
                     Lit " and "; Bare "ITEM"; Dollar ] eq_refl eq_refl)
    as [Hvalue' _].
  exact Hvalue'.
Defined.

(** C3 (as stated) fails: a source may return a text together with
    [ok = false], and [lookupEnv] substitutes that text, not the empty
    string. *)
Lemma lookupEnv_expand_missing_not_empty :
  ~ (forall (l : loader) (key : string) (t : list segment),
       wellFormed t = true ->
       LookupEnv (provider l) key = (render t, true) ->
       lookupEnv l key true = (substitute (valueOrEmpty (provider l)) t, true)).
Proof.
  intros Hclaim.
  specialize (Hclaim (mkLoader fallbackProvider "" " ") "ADDR"
                [Brace "HOST"] eq_refl eq_refl).
  vm_compute in Hclaim. discriminate Hclaim.
Qed.

(** ** Values and handles *)

(** Induction on values, with the hypothesis for the fields of a struct and
    the elements of a slice. *)
Fixpoint Value_nested_ind (P : Value -> Prop)
    (Hscalar : forall k x, P (VScalar k x))
    (Hstruct : forall fs, Forall (fun f => P (val f)) fs -> P (VStruct fs))
    (Hslice : forall zero es, P zero -> Forall P es -> P (VSlice zero es))
    (Htext : forall t u, P u -> P (VText t u))
    (Hother : forall t, P (VOther t))
    (v : Value) {struct v} : P v :=
  let rec := Value_nested_ind P Hscalar Hstruct Hslice Htext Hother in
  match v with
  | VScalar k x => Hscalar k x
  | VStruct fs =>
      Hstruct fs
        ((fix go (fs : list (StructField Value)) : Forall (fun f => P (val f)) fs :=
            match fs with
            | [] => @List.Forall_nil _ _
            | f :: rest => @List.Forall_cons _ _ _ _ (rec (val f)) (go rest)
            end) fs)
  | VSlice zero es =>
      Hslice zero es (rec zero)
        ((fix go (es : list Value) : Forall P es :=
            match es with
            | [] => @List.Forall_nil _ _
            | e :: rest => @List.Forall_cons _ _ _ _ (rec e) (go rest)
            end) es)
  | VText t u => Htext t u (rec u)
  | VOther t => Hother t
  end.

Section handle_facts.

Implicit Types (v root new : Value) (h : Handle)
  (g : StructField Value -> StructField Value).

Lemma KindOf_withFields G v : KindOf (withFields G v) = KindOf v.
Proof. induction v; simpl; auto. Qed.

Lemma implements_withFields G v :
  implements_unmarshalerIface (withFields G v) = implements_unmarshalerIface v.
Proof. by destruct v. Qed.

Lemma Fields_withFields_alter g i v :
  Fields (withFields (alter g i) v) = alter g i (Fields v).
Proof. induction v; simpl; auto. Qed.

Lemma before_cons c h1 h2 : before h1 h2 -> before (c :: h1) (c :: h2).
Proof.
  intros (common & i & j & r1 & r2 & -> & -> & Hij).
  by exists (c :: common), i, j, r1, r2.
Qed.

Lemma before_app common h1 h2 :
  before h1 h2 -> before (common ++ h1) (common ++ h2).
Proof. induction common; simpl; auto using before_cons. Qed.

Lemma before_heads i j r1 r2 : i < j -> before (i :: r1) (j :: r2).
Proof. intros Hij. by exists [], i, j, r1, r2. Qed.

Lemma before_inv_cons a b h1 h2 :
  before (a :: h1) (b :: h2) -> a < b \/ (a = b /\ before h1 h2).
Proof.
  intros (common & i & j & r1 & r2 & E1 & E2 & Hij).
  destruct common as [|c common]; simpl in *; simplify_eq.
  - by left.
  - right. split; [done|]. by exists common, i, j, r1, r2.
Qed.

Lemma before_nil_l h : ~ before [] h.
Proof. intros (common & i & j & r1 & r2 & E1 & _). by destruct common. Qed.

Lemma before_nil_r h : ~ before h [].
Proof. intros (common & i & j & r1 & r2 & _ & E2 & _). by destruct common. Qed.

(** Handles that part are not prefixes of each other. *)
Lemma before_not_prefix h1 h2 :
  before h1 h2 -> ~ h1 `prefix_of` h2 /\ ~ h2 `prefix_of` h1.
Proof.
  intros (common & i & j & r1 & r2 & -> & -> & Hij).
  split; intros [k Hk]; rewrite <- app_assoc in Hk;
    apply app_inv_head in Hk; simpl in Hk; simplify_eq; lia.
Qed.

(** Writing through a handle leaves what the handles that part from it
    point to. *)
Lemma deref_assign_apart h1 h2 new root :
  before h1 h2 \/ before h2 h1 ->
  deref h2 (assign h1 new root) = deref h2 root.
Proof.
  revert h2 root.
  induction h1 as [|a h1 IH]; intros h2 root Hapart.
  - destruct Hapart as [Hb|Hb];
      [by apply before_nil_l in Hb|by apply before_nil_r in Hb].
  - destruct h2 as [|b h2].
    { destruct Hapart as [Hb|Hb];
        [by apply before_nil_r in Hb|by apply before_nil_l in Hb]. }
    simpl. rewrite Fields_withFields_alter.
    destruct (decide (a = b)) as [->|Hne].
    + rewrite list_lookup_alter_eq.
      destruct (Fields root !! b) as [f|]; simpl; [|done].
      apply IH.
      destruct Hapart as [Hb|Hb]; apply before_inv_cons in Hb;
        destruct Hb as [?|[_ ?]]; auto; lia.
    + by rewrite list_lookup_alter_ne.
Qed.

(** Reading back what has been written. *)
Lemma deref_assign_same h new root :
  is_Some (deref h root) -> deref h (assign h new root) = Some new.
Proof.
  revert root.
  induction h as [|a h IH]; intros root; simpl; [done|].
  rewrite Fields_withFields_alter, list_lookup_alter_eq.
  destruct (Fields root !! a) as [f|]; simpl; [apply IH|by intros [? ?]].
Qed.

End handle_facts.

(** ** Discovery *)

Section discovery_facts.
Context `{GoLib}.

Implicit Types (l : loader) (h : Handle) (f : StructField Value)
  (fs : list (StructField Value)) (vars : list variable) (v : Value).

(** The variables found so far are only extended. *)
Lemma parseFields_acc rec l h fs i vars :
  parseFields rec l h fs i vars
  = new ← parseFields rec l h fs i []; inr (vars ++ new).
Proof.
  revert i vars.
  induction fs as [|f fs IH]; intros i vars; simpl.
  - by rewrite app_nil_r.
  - destruct (negb (exported f)); [apply IH|].
    destruct (kindOf (val f) Struct && negb (implements_unmarshalerIface (val f))).
    { destruct (rec (h ++ [i]) (val f)) as [err|nested]; [done|].
      rewrite (IH (S i) (vars ++ nested)), (IH (S i) nested).
      destruct (parseFields rec l h fs (S i) []) as [err|new]; simpl; [done|].
      by rewrite app_assoc. }
    destruct (envTag f) as [value|]; [|apply IH].
    destruct (String.eqb _ ""); [done|].
    destruct (parseOptions _ false false) as [err|[required expand]]; [done|].
    rewrite (IH (S i) (vars ++ _)), (IH (S i) [_]).
    destruct (parseFields rec l h fs (S i) []) as [err|new]; simpl; [done|].
    by rewrite <- app_assoc.
Qed.

(** The loop over one field. *)
Lemma parseFields_single rec l h f i :
  parseFields rec l h [f] i []
  = if negb (exported f) then inr []
    else if nestedStruct (val f) then rec (h ++ [i]) (val f)
    else
      match envTag f with
      | None => inr []
      | Some value =>
          let parts := strings.Split value "," in
          if String.eqb (hd "" parts) "" then inl ErrEmptyTagName
          else
            '(required, expand) ← parseOptions (tl parts) false false;
            inr [mkVariable (prefix l +:+ hd "" parts) required expand
                            (h ++ [i])]
      end.
Proof.
  unfold nestedStruct. simpl.
  destruct (negb (exported f)); [done|].
  destruct (kindOf (val f) Struct && negb (implements_unmarshalerIface (val f))).
  { by destruct (rec (h ++ [i]) (val f)). }
  destruct (envTag f) as [value|]; [|done].
  destruct (String.eqb _ ""); [done|].
  by destruct (parseOptions _ false false) as [err|[required expand]].
Qed.

Lemma parseFields_cons rec l h f fs i :
  parseFields rec l h (f :: fs) i []
  = vs ← parseFields rec l h [f] i [];
    vs' ← parseFields rec l h fs (S i) [];
    inr (vs ++ vs').
Proof.
  simpl.
  destruct (negb (exported f)).
  { simpl. by destruct (parseFields rec l h fs (S i) []). }
  destruct (kindOf (val f) Struct && negb (implements_unmarshalerIface (val f))).
  { destruct (rec (h ++ [i]) (val f)) as [err|nested]; [done|]. simpl.
    by rewrite parseFields_acc. }
  destruct (envTag f) as [value|].
  2:{ simpl. by destruct (parseFields rec l h fs (S i) []). }
  destruct (String.eqb _ ""); [done|].
  destruct (parseOptions _ false false) as [err|[required expand]]; [done|].
  simpl. by rewrite parseFields_acc.
Qed.

Lemma parseFields_app rec l h fs1 fs2 i :
  parseFields rec l h (fs1 ++ fs2) i []
  = vs1 ← parseFields rec l h fs1 i [];
    vs2 ← parseFields rec l h fs2 (i + length fs1) [];
    inr (vs1 ++ vs2).
Proof.
  revert i.
  induction fs1 as [|f fs1 IH]; intros i.
  - simpl. rewrite Nat.add_0_r.
    by destruct (parseFields rec l h fs2 i []).
  - rewrite <- app_comm_cons.
    rewrite parseFields_cons, (parseFields_cons _ _ _ f fs1), IH.
    replace (S i + length fs1) with (i + length (f :: fs1)) by (simpl; lia).
    destruct (parseFields rec l h [f] i []) as [err|vs]; [done|].
    destruct (parseFields rec l h fs1 (S i) []) as [err|vs1]; [done|].
    destruct (parseFields rec l h fs2 (i + length (f :: fs1)) [])
      as [err|vs2]; [done|].
    simpl. by rewrite app_assoc.
Qed.

(** [parseVars] runs the loop over the fields of the struct. *)
Lemma parseVars_Fields l h v :
  parseVars l h v = discoverFields l h 0 (Fields v).
Proof. unfold discoverFields. induction v; simpl; auto. Qed.

Lemma fieldAt_Fields h v : fieldAt h v = fieldAt h (VStruct (Fields v)).
Proof. by destruct h. Qed.

Lemma fieldAt_deref h v f : fieldAt h v = Some f -> deref h v = Some (val f).
Proof.
  revert v.
  induction h as [|i h IH]; intros v; simpl; [done|].
  destruct (Fields v !! i) as [g|]; [|done].
  destruct h as [|j h]; [by intros [= ->]|]. apply IH.
Qed.

(** The variables of a run of the loop over fields: they come in
    declaration order, depth-first, and each has the handle of a bindable
    field, at or after index [i]. *)
Lemma parseFields_handles l h fs i vars :
  Forall (fun f => forall h' vars',
            parseVars l h' (val f) = inr vars' ->
            StronglySorted before (field <$> vars')
            /\ Forall (fun x => exists r f',
                         field x = h' ++ r /\ fieldAt r (val f) = Some f'
                         /\ bindable f') vars') fs ->
  parseFields (parseVars l) l h fs i [] = inr vars ->
  StronglySorted before (field <$> vars)
  /\ Forall (fun x => exists j r f',
               field x = h ++ (i + j) :: r
               /\ fieldAt (j :: r) (VStruct fs) = Some f'
               /\ bindable f') vars.
Proof.
  intros Hrec. revert i vars.
  induction Hrec as [|f fs Hf _ IH]; intros i vars.
  { intros [= <-]. split; constructor. }
  rewrite parseFields_cons.
  destruct (parseFields (parseVars l) l h [f] i []) as [err|vs] eqn:Ef;
    [done|].
  destruct (parseFields (parseVars l) l h fs (S i) []) as [err|vs'] eqn:Efs;
    [done|].
  simpl. intros [= <-].
  destruct (IH _ _ Efs) as [Hsorted' Hall'].
  assert (Hvs : StronglySorted before (field <$> vs)
                /\ Forall (fun x => exists r f',
                             field x = h ++ i :: r
                             /\ fieldAt (0 :: r) (VStruct (f :: fs)) = Some f'
                             /\ bindable f') vs).
  { rewrite parseFields_single in Ef.
    destruct (exported f) eqn:Eexp; simpl in Ef;
      [|injection Ef as <-; split; constructor].
    destruct (nestedStruct (val f)) eqn:Enest.
    - destruct (Hf _ _ Ef) as [Hs Ha]. split; [done|].
      eapply Forall_impl; [exact Ha|].
      intros x (r & f' & Hx & Hr & Hb). exists r, f'.
      rewrite Hx, <- app_assoc. split; [done|]. split; [|done].
      simpl. destruct r; [done|exact Hr].
    - destruct (envTag f) as [value|] eqn:Etag;
        [|injection Ef as <-; split; constructor].
      simpl in Ef.
      destruct (String.eqb _ ""); [done|].
      destruct (parseOptions _ false false) as [err|[req exp]]; [done|].
      simpl in Ef. injection Ef as <-.
      split; [repeat constructor|].
      constructor; [|constructor].
      exists [], f. simpl. repeat split; eauto. }
  destruct Hvs as [Hsorted Hall].
  split.
  - rewrite fmap_app. apply StronglySorted_app_2; [|done|done].
    intros h1 h2 (x1 & -> & Hx1)%list_elem_of_fmap
                 (x2 & -> & Hx2)%list_elem_of_fmap.
    rewrite Forall_forall in Hall, Hall'.
    destruct (Hall _ Hx1) as (r1 & _ & -> & _).
    destruct (Hall' _ Hx2) as (j & r2 & _ & -> & _).
    apply before_app, before_heads. lia.
  - apply Forall_app. split.
    + eapply Forall_impl; [exact Hall|].
      intros x (r & f' & Hx & Hr & Hb). exists 0, r, f'.
      by rewrite Nat.add_0_r.
    + eapply Forall_impl; [exact Hall'|].
      intros x (j & r & f' & Hx & Hr & Hb). exists (S j), r, f'.
      split; [by rewrite Hx, Nat.add_succ_r|]. by split.
Qed.

(** The variables of [parseVars]. *)
Lemma parseVars_handles l h v vars :
  parseVars l h v = inr vars ->
  StronglySorted before (field <$> vars)
  /\ Forall (fun x => exists r f',
               field x = h ++ r /\ fieldAt r v = Some f' /\ bindable f') vars.
Proof.
  revert h vars.
  induction v as [k x|fs IH|zero es _ _|t u IH|t]
    using Value_nested_ind; intros h vars; simpl;
    try (intros [= <-]; split; constructor).
  - intros Hvars.
    destruct (parseFields_handles _ _ _ _ _ IH Hvars) as [Hs Ha].
    split; [done|].
    eapply Forall_impl; [exact Ha|].
    intros x (j & r & f' & Hx & Hr & Hb). exists (j :: r), f'. by split.
  - intros Hvars. destruct (IH _ _ Hvars) as [Hs Ha].
    split; [done|].
    eapply Forall_impl; [exact Ha|].
    intros x (r & f' & Hx & Hr & Hb). exists r, f'.
    by rewrite fieldAt_Fields in Hr |- *.
Qed.

End discovery_facts.

Section discovery_claims.
Context `{GoLib}.

Implicit Types (l : loader) (h : Handle) (f : StructField Value)
  (fs : list (StructField Value)) (vars : list variable) (v : Value).

Lemma discoverField_leaf l h i f :
  exported f = true -> nestedStruct (val f) = false ->
  discoverField l h i f = tagVariable l (h ++ [i]) (envTag f).
Proof.
  intros Hexp Hnest. unfold discoverField, discoverFields, tagVariable.
  rewrite parseFields_single, Hexp. simpl. by rewrite Hnest.
Qed.

Lemma discoverField_nested l h i f :
  exported f = true -> nestedStruct (val f) = true ->
  discoverField l h i f = parseVars l (h ++ [i]) (val f).
Proof.
  intros Hexp Hnest. unfold discoverField, discoverFields.
  rewrite parseFields_single, Hexp. simpl. by rewrite Hnest.
Qed.

(** Discovery of a struct, split at one of its fields. *)
Lemma parseVars_split l h v fs1 f fs2 :
  Fields v = fs1 ++ f :: fs2 ->
  parseVars l h v
  = vs1 ← discoverFields l h 0 fs1;
    vs ← discoverField l h (length fs1) f;
    vs2 ← discoverFields l h (S (length fs1)) fs2;
    inr (vs1 ++ vs ++ vs2).
Proof.
  intros Hfs. rewrite parseVars_Fields, Hfs.
  unfold discoverField, discoverFields.
  rewrite parseFields_app, parseFields_cons.
  change (0 + length fs1) with (length fs1).
  destruct (parseFields (parseVars l) l h fs1 0 []) as [err|vs1]; [done|].
  destruct (parseFields (parseVars l) l h [f] (length fs1) []) as [err|vs];
    [done|].
  by destruct (parseFields (parseVars l) l h fs2 (S (length fs1)) []).
Qed.

(** C4: discovery visits the fields in declaration order, depth-first.  In a
    struct, a settable field of kind struct without the textual-unmarshal
    capability is recursed into, and its variables take its place between
    those of the fields before and after it; with the capability it is a
    leaf: what it yields comes from its annotation alone.  The variables come
    in declaration order, depth-first, and each has the handle of a bindable
    field, never of a struct that is recursed into. *)
Theorem parseVars_depth_first l h v fs1 f fs2 :
  Fields v = fs1 ++ f :: fs2 ->
  exported f = true ->
  kindOf (val f) Struct = true ->
  (implements_unmarshalerIface (val f) = false ->
   parseVars l h v
   = vs1 ← discoverFields l h 0 fs1;
     nested ← parseVars l (h ++ [length fs1]) (val f);
     vs2 ← discoverFields l h (S (length fs1)) fs2;
     inr (vs1 ++ nested ++ vs2))
  /\ (implements_unmarshalerIface (val f) = true ->
      parseVars l h v
      = vs1 ← discoverFields l h 0 fs1;
        leaf ← tagVariable l (h ++ [length fs1]) (envTag f);
        vs2 ← discoverFields l h (S (length fs1)) fs2;
        inr (vs1 ++ leaf ++ vs2))
  /\ (forall vars,
        parseVars l h v = inr vars ->
        StronglySorted before (field <$> vars)
        /\ Forall (fun x => exists r f',
                     field x = h ++ r /\ fieldAt r v = Some f'
                     /\ bindable f') vars).
Proof.
  intros Hfs Hexp Hkind.
  split; [|split].
  - intros Himpl. rewrite (parseVars_split _ _ _ _ _ _ Hfs).
    rewrite discoverField_nested; [done..|].
    unfold nestedStruct. by rewrite Hkind, Himpl.
  - intros Himpl. rewrite (parseVars_split _ _ _ _ _ _ Hfs).
    rewrite discoverField_leaf; [done..|].
    unfold nestedStruct. by rewrite Hkind, Himpl.
  - apply parseVars_handles.
Qed.

(** An error at a field that discovery reaches aborts discovery. *)
Lemma visits_abort l h v hp i f err :
  visits l h v hp i f ->
  discoverField l hp i f = inl err ->
  parseVars l h v = inl err.
Proof.
  induction 1 as [h v fs1 f fs2 vs1 Hfs Hvs1
                 |h v fs1 g fs2 vs1 hp i f Hfs Hvs1 Hexp Hnest _ IH];
    intros Herr; rewrite (parseVars_split _ _ _ _ _ _ Hfs), Hvs1.
  - by rewrite Herr.
  - by rewrite (discoverField_nested _ _ _ _ Hexp Hnest), (IH Herr).
Qed.

Lemma visits_kindOf l h v hp i f :
  visits l h v hp i f -> kindOf v Struct = true.
Proof.
  assert (Hk : forall v, Fields v <> [] -> kindOf v Struct = true).
  { intros u. unfold kindOf. induction u; simpl; auto; done. }
  intros [? ? fs1 ? ? ? Hfs|? ? fs1 ? ? ? ? ? ? Hfs]; apply Hk; rewrite Hfs;
    by destruct fs1.
Qed.

(** An error of discovery is the error of the call, which leaves the
    destination as it is. *)
Lemma loadVars_discovery_error l root err :
  kindOf root Struct = true ->
  parseVars l [] root = inl err ->
  loadVars l (ArgPtr (Some root)) = (ArgPtr (Some root), Some err).
Proof. intros Hk Herr. unfold loadVars. simpl. by rewrite Hk, Herr. Qed.

Lemma parseOptions_recognized options required expand :
  Forall recognized options ->
  parseOptions options required expand
  = inr (required || bool_decide ("required" ∈ options),
         expand || bool_decide ("expand" ∈ options)).
Proof.
  intros Hall. revert required expand.
  induction Hall as [|option options Hopt _ IH]; intros required expand.
  - simpl. by rewrite !orb_false_r.
  - assert (Hin : forall a b : string,
              bool_decide (a ∈ b :: options)
              = bool_decide (a = b) || bool_decide (a ∈ options)).
    { intros a b. rewrite <- bool_decide_or. apply bool_decide_ext.
      by rewrite elem_of_cons. }
    rewrite !Hin.
    destruct Hopt as [-> | ->]; simpl; rewrite IH; simpl;
      by rewrite ?orb_true_r.
Qed.

Lemma parseOptions_rejected accepted option rest required expand :
  Forall recognized accepted ->
  ~ recognized option ->
  parseOptions (accepted ++ option :: rest) required expand
  = inl (Errorf_w_q ErrInvalidTagOption option).
Proof.
  intros Hall Hnot. revert required expand.
  induction Hall as [|o accepted Ho _ IH]; intros required expand; simpl.
  - destruct (String.eqb_spec option "required") as [->|_].
    { destruct Hnot. by left. }
    destruct (String.eqb_spec option "expand") as [->|_]; [|done].
    destruct Hnot. by right.
  - destruct Ho as [-> | ->]; simpl; apply IH.
Qed.

(** C5 (as amended): when discovery reaches a field whose annotation it
    reads (a settable field that is not a nested struct recursed into) and
    the first comma-separated part of the annotation is empty, discovery
    fails with [ErrEmptyTagName], whatever the other parts are, and the whole
    call returns that error, leaving the destination untouched. *)
Theorem parseVars_empty_tag_name l root hp i f tag options :
  visits l [] root hp i f ->
  exported f = true ->
  nestedStruct (val f) = false ->
  envTag f = Some tag ->
  strings.Split tag "," = "" :: options ->
  parseVars l [] root = inl ErrEmptyTagName
  /\ loadVars l (ArgPtr (Some root)) = (ArgPtr (Some root), Some ErrEmptyTagName).
Proof.
  intros Hvisits Hexp Hnest Htag Hparts.
  assert (Herr : parseVars l [] root = inl ErrEmptyTagName).
  { apply (visits_abort _ _ _ _ _ _ _ Hvisits).
    rewrite (discoverField_leaf _ _ _ _ Hexp Hnest), Htag.
    unfold tagVariable. simpl. by rewrite Hparts. }
  split; [done|].
  apply loadVars_discovery_error; [|done].
  by apply visits_kindOf in Hvisits.
Qed.

(** C6 (as amended): when discovery reaches a field whose annotation it
    reads and the name in the annotation is not empty, the options are
    accepted exactly when each is [required] or [expand], and the field then
    yields its variable; the first option that is another literal makes
    discovery fail with an error that wraps [ErrInvalidTagOption] and carries
    that literal, and the whole call returns it. *)
Theorem parseVars_tag_options l root hp i f tag NAME options :
  visits l [] root hp i f ->
  exported f = true ->
  nestedStruct (val f) = false ->
  envTag f = Some tag ->
  strings.Split tag "," = NAME :: options ->
  NAME <> "" ->
  (Forall recognized options ->
   discoverField l hp i f
   = inr [mkVariable (prefix l +:+ NAME)
            (bool_decide ("required" ∈ options))
            (bool_decide ("expand" ∈ options)) (hp ++ [i])])
  /\ (forall accepted option rest,
        options = accepted ++ option :: rest ->
        Forall recognized accepted ->
        ~ recognized option ->
        let err := Errorf_w_q ErrInvalidTagOption option in
        errors_Is err isErrInvalidTagOption = true
        /\ parseVars l [] root = inl err
        /\ loadVars l (ArgPtr (Some root)) = (ArgPtr (Some root), Some err)).
Proof.
  intros Hvisits Hexp Hnest Htag Hparts Hname.
  assert (Hleaf : discoverField l hp i f
                  = '(required, expand) ← parseOptions options false false;
                    inr [mkVariable (prefix l +:+ NAME) required expand
                                    (hp ++ [i])]).
  { rewrite (discoverField_leaf _ _ _ _ Hexp Hnest), Htag.
    unfold tagVariable. simpl. rewrite Hparts. simpl.
    apply String.eqb_neq in Hname. by rewrite Hname. }
  split.
  - intros Hall. by rewrite Hleaf, (parseOptions_recognized _ _ _ Hall).
  - intros accepted option rest -> Hall Hnot err.
    split; [done|].
    assert (Herr : parseVars l [] root = inl err).
    { apply (visits_abort _ _ _ _ _ _ _ Hvisits).
      by rewrite Hleaf, (parseOptions_rejected _ _ _ _ _ Hall Hnot). }
    split; [done|].
    apply loadVars_discovery_error; [|done].
    by apply visits_kindOf in Hvisits.
Qed.

End discovery_claims.

Lemma parseVars_depth_first_witness :
  parseVars (H := ascii_lib.lib) example.l [] example.config
  = inr [ mkVariable "PORT" false false [0];
          mkVariable "ADDR" false true [1];
          mkVariable "PORTS" false false [2; 0];
          mkVariable "HOST" true false [2; 1];
          mkVariable "SINCE" false false [3];
          mkVariable "NAME" false false [4];
          mkVariable "KEY" true false [5] ].
Proof.
  destruct (parseVars_depth_first (H := ascii_lib.lib) example.l []
              example.config
              [ mkField true (Some "PORT") (VScalar (KInt 64) (SInt 0));
                mkField true (Some "ADDR,expand") (VScalar KString (SString "")) ]
              _ _ eq_refl eq_refl eq_refl) as [Hnested _].
  rewrite (Hnested eq_refl). reflexivity.
Defined.

Lemma visits_nesting `{GoLib} (l : loader) (f : StructField Value) :
  visits l [] (example.nesting f) [1] 1 f.
Proof.
  eapply (visits_nested l [] _ [example.portField] _ [] _ [1] 1 f);
    [reflexivity..|].
  eapply (visits_field l [1] _ [example.hostField] f [] _); reflexivity.
Defined.

Lemma parseVars_empty_tag_name_witness :
  loadVars (H := ascii_lib.lib) example.l
    (ArgPtr (Some (example.nesting example.unnamedField)))
  = (ArgPtr (Some (example.nesting example.unnamedField)), Some ErrEmptyTagName).
Proof.
  apply (parseVars_empty_tag_name (H := ascii_lib.lib) example.l _ [1] 1
           example.unnamedField ",required" ["required"]);
    [apply visits_nesting|reflexivity..].
Defined.

Lemma parseVars_tag_options_witness :
  loadVars (H := ascii_lib.lib) example.l
    (ArgPtr (Some (example.nesting example.optionalField)))
  = (ArgPtr (Some (example.nesting example.optionalField)),
     Some (Errorf_w_q ErrInvalidTagOption "optional")).
Proof.
  destruct (parseVars_tag_options (H := ascii_lib.lib) example.l _ [1] 1
              example.optionalField "KEY,required,optional,expand" "KEY"
              ["required"; "optional"; "expand"]
              (visits_nesting _ _) eq_refl eq_refl eq_refl eq_refl)
    as [_ Hreject]; [done|].
  apply (Hreject ["required"] "optional" ["expand"] eq_refl).
  - repeat constructor.
  - intros [Hr|He]; discriminate.
Defined.

(** ** The errors of the stages *)

Section error_facts.
Context `{GoLib}.

Lemma parseOptions_error options required expand err :
  parseOptions options required expand = inl err -> discoveryError err.
Proof.
  revert required expand.
  induction options as [|option options IH]; intros required expand; simpl;
    [done|].
  destruct (String.eqb option "required"); [apply IH|].
  destruct (String.eqb option "expand"); [apply IH|].
  by intros [= <-].
Qed.

Lemma parseVars_error l h v err :
  parseVars l h v = inl err -> discoveryError err.
Proof.
  revert h.
  induction v as [k x|fs IH|zero es _ _|t u IH|t]
    using Value_nested_ind; intros h; simpl; try done; [|apply IH].
  generalize 0 as i.
  induction IH as [|f fs Hf _ IHfs]; intros i; [done|].
  rewrite parseFields_cons.
  destruct (parseFields _ l h [f] i []) as [e|vs] eqn:Ef; simpl.
  - intros [= <-]. rewrite parseFields_single in Ef.
    destruct (negb (exported f)); [done|].
    destruct (nestedStruct (val f)); [by apply (Hf _ Ef)|].
    destruct (envTag f) as [value|]; [|done]. simpl in Ef.
    destruct (String.eqb _ ""); [by injection Ef as <-|].
    destruct (parseOptions _ false false) as [e'|[req exp]] eqn:E; [|done].
    injection Ef as <-. by apply parseOptions_error in E.
  - destruct (parseFields _ l h fs (S i) []) as [e|vs'] eqn:E'; [|done].
    simpl. intros [= <-]. by apply (IHfs _ E').
Qed.

Lemma setValue_error v s err : setValue v s = inl err -> binderError err.
Proof.
  destruct v as [k x|fs|zero es|t u|t]; simpl; try by intros [= <-].
  - destruct k; simpl; try done;
      (destruct (strconvParse _ s) as [msg|y]; [by intros [= <-]|done]).
  - destruct (unmarshalText t s u) as [msg|y]; [by intros [= <-]|done].
Qed.

Lemma setElems_error zero s err :
  setElems zero s = inl err -> binderError err.
Proof.
  induction s as [|piece s IH]; simpl; [done|].
  destruct (setValue zero piece) as [e|x] eqn:E.
  - intros [= <-]. by apply setValue_error in E.
  - destruct (setElems zero s); [|done]. intros [= <-]. by apply IH.
Qed.

Lemma bind_error l fv value err : bind l fv value = inl err -> binderError err.
Proof.
  unfold bind.
  destruct (kindOf fv Slice && negb (implements_unmarshalerIface fv));
    [|apply setValue_error].
  destruct fv as [k x|fs|zero es|t u|t]; simpl; try by intros [= <-].
  destruct (setElems zero _) as [e|es'] eqn:E; [|done].
  intros [= <-]. by apply setElems_error in E.
Qed.

Lemma loadRange_error l vars root notset root' err :
  loadRange l vars root notset = (root', inl err) -> binderError err.
Proof.
  revert root notset.
  induction vars as [|v vars IH]; intros root notset; simpl; [done|].
  destruct (lookupEnv l (name v) (expand v)) as [value []]; simpl;
    [|apply IH].
  destruct (deref (field v) root) as [fv|]; [|by intros [= _ <-]].
  destruct (bind l fv value) as [e|fv'] eqn:E; [|apply IH].
  intros [= _ <-]. by apply bind_error in E.
Qed.

End error_facts.

(** ** The pre-flight check *)

(** C9: [Load] and [LoadFrom] return [ErrInvalidArgument], and the
    destination as it was, for every argument that [structPtr] refuses, that
    is, every argument that is not a non-nil pointer to a struct; for the
    others the check passes: the error of the call, if any, is another one. *)
Theorem loadVars_invalid_argument `{GoLib} (p : Provider)
    (environ : gmap string string) (dst : Argument) (opts : list Option) :
  (structPtr dst = true <-> exists v, dst = ArgPtr (Some v) /\ KindOf v = Struct)
  /\ (structPtr dst = false ->
      LoadFrom p dst opts = (dst, Some ErrInvalidArgument)
      /\ Load environ dst opts = (dst, Some ErrInvalidArgument))
  /\ (structPtr dst = true ->
      (LoadFrom p dst opts).2 <> Some ErrInvalidArgument
      /\ (Load environ dst opts).2 <> Some ErrInvalidArgument).
Proof.
  split; [|split].
  - destruct dst as [|v|[v|]]; simpl; split; try done;
      try (by intros (u & [= ] & _)).
    + intros Hk. exists v. split; [done|].
      unfold kindOf in Hk. by destruct (KindOf v).
    + intros (u & [= <-] & Hk). unfold kindOf. by rewrite Hk.
  - intros Hno. unfold LoadFrom, Load, loadVars. by rewrite Hno.
  - intros Hyes.
    assert (Hl : forall l, (loadVars l dst).2 <> Some ErrInvalidArgument);
      [|split; apply Hl].
    intros l. unfold loadVars. rewrite Hyes. simpl.
    destruct dst as [|v|[root|]]; try done. simpl.
    destruct (parseVars l [] root) as [e|vars] eqn:E; simpl.
    { apply parseVars_error in E. intros [= ->]. done. }
    destruct (loadRange l vars root []) as [root' [e|notset]] eqn:E'; simpl.
    { apply loadRange_error in E'. intros [= ->]. done. }
    by destruct (0 <? length notset).
Qed.

Lemma loadVars_invalid_argument_witness :
  LoadFrom (H := ascii_lib.lib) (Map example.source) (ArgPtr None) []
  = (ArgPtr None, Some ErrInvalidArgument)
  /\ LoadFrom (H := ascii_lib.lib) (Map example.source)
       (ArgValue example.config) []
     = (ArgValue example.config, Some ErrInvalidArgument).
Proof.
  split.
  - by destruct (loadVars_invalid_argument (H := ascii_lib.lib)
                   (Map example.source) ∅ (ArgPtr None) [])
      as (_ & [Hfrom _] & _).
  - by destruct (loadVars_invalid_argument (H := ascii_lib.lib)
                   (Map example.source) ∅ (ArgValue example.config) [])
      as (_ & [Hfrom _] & _).
Defined.

(** ** The loop over the variables *)

Section load_facts.
Context `{GoLib}.

Implicit Types (l : loader) (h : Handle) (v x : variable)
  (vars : list variable) (root : Value) (notset : list string).

Lemma missing_cons l v vars :
  missing l (v :: vars)
  = (if required v && notFound l v then [name v] else []) ++ missing l vars.
Proof.
  unfold missing. rewrite filter_cons.
  destruct (decide _) as [Hv|Hv]; simpl.
  - by rewrite Hv.
  - apply not_true_is_false in Hv. by rewrite Hv.
Qed.

(** A variable that is not found only feeds the accumulator, and only when
    it is required. *)
Lemma loadRange_not_found l v vars root notset :
  notFound l v = true ->
  loadRange l (v :: vars) root notset
  = loadRange l vars root (if required v then notset ++ [name v] else notset).
Proof.
  unfold notFound. simpl.
  destruct (lookupEnv l (name v) (expand v)) as [value ok]. simpl.
  by intros ->%negb_true_iff.
Qed.

(** When the loop ends, it has accumulated the missing required names. *)
Lemma loadRange_notset l vars root notset root' names :
  loadRange l vars root notset = (root', inr names) ->
  names = notset ++ missing l vars.
Proof.
  revert root notset.
  induction vars as [|v vars IH]; intros root notset.
  - simpl. intros [= _ <-]. by rewrite app_nil_r.
  - rewrite missing_cons.
    destruct (notFound l v) eqn:Efound.
    + rewrite loadRange_not_found by done.
      intros ->%IH. rewrite andb_true_r.
      destruct (required v); [by rewrite <- app_assoc|done].
    + rewrite andb_false_r. simpl.
      unfold notFound in Efound. apply negb_false_iff in Efound.
      destruct (lookupEnv l (name v) (expand v)) as [value ok].
      simpl in Efound. subst ok. simpl.
      destruct (deref (field v) root) as [fv|]; [|done].
      destruct (bind l fv value) as [e|fv']; [done|]. apply IH.
Qed.

(** The loop leaves what a handle points to when every variable it writes
    has a handle that parts from it. *)
Lemma loadRange_untouched l vars h root notset :
  (forall x, x ∈ vars -> notFound l x = false ->
             before (field x) h \/ before h (field x)) ->
  deref h (loadRange l vars root notset).1 = deref h root.
Proof.
  revert root notset.
  induction vars as [|v vars IH]; intros root notset Hapart; [done|].
  assert (Hrest : forall x, x ∈ vars -> notFound l x = false ->
                            before (field x) h \/ before h (field x))
    by (intros x Hx; apply Hapart; by right).
  destruct (notFound l v) eqn:Efound.
  { rewrite loadRange_not_found by done. by apply IH. }
  specialize (Hapart v (list_elem_of_here _ _) Efound).
  unfold notFound in Efound. apply negb_false_iff in Efound. simpl.
  destruct (lookupEnv l (name v) (expand v)) as [value ok].
  simpl in Efound. subst ok. simpl.
  destruct (deref (field v) root) as [fv|]; [|done].
  destruct (bind l fv value) as [e|fv']; [done|].
  rewrite IH by done. by apply deref_assign_apart.
Qed.

Lemma StronglySorted_apart {A B} (R : relation B) (g : A -> B) (xs : list A)
    (a b : A) :
  StronglySorted R (g <$> xs) -> a ∈ xs -> b ∈ xs -> a <> b ->
  R (g a) (g b) \/ R (g b) (g a).
Proof.
  induction xs as [|x xs IH]; simpl; [by intros _ ?%elem_of_nil|].
  rewrite StronglySorted_cons, Forall_fmap, Forall_forall.
  intros [Hx Hxs] [->|Ha]%elem_of_cons [->|Hb]%elem_of_cons Hne.
  - done.
  - left. by apply Hx.
  - right. by apply Hx.
  - by apply IH.
Qed.

(** On the variables of discovery, an error of the loop is the error of a
    conversion: every handle still points to its field when its turn
    comes. *)
Lemma loadRange_error_from_bind l vars root notset root' err :
  StronglySorted before (field <$> vars) ->
  Forall (fun x => is_Some (deref (field x) root)) vars ->
  loadRange l vars root notset = (root', inl err) ->
  exists x fv value,
    x ∈ vars /\ lookupEnv l (name x) (expand x) = (value, true)
    /\ bind l fv value = inl err.
Proof.
  revert root notset.
  induction vars as [|v vars IH]; intros root notset Hsorted Hall; [done|].
  rewrite fmap_cons, StronglySorted_cons, Forall_fmap in Hsorted.
  destruct Hsorted as [Hv Hsorted].
  apply Forall_cons in Hall as [[fv Hfv] Hall].
  assert (Hrest : forall r n,
            Forall (fun x => is_Some (deref (field x) r)) vars ->
            loadRange l vars r n = (root', inl err) ->
            exists x fv value,
              x ∈ v :: vars /\ lookupEnv l (name x) (expand x) = (value, true)
              /\ bind l fv value = inl err).
  { intros r n Hr Hloop.
    destruct (IH r n Hsorted Hr Hloop) as (x & fx & value & Hx & Hrest).
    exists x, fx, value. split; [by right|done]. }
  simpl.
  destruct (lookupEnv l (name v) (expand v)) as [value ok] eqn:Elook.
  destruct ok; simpl; [|by apply Hrest].
  rewrite Hfv.
  destruct (bind l fv value) as [e|fv'] eqn:Ebind.
  - intros [= _ <-]. exists v, fv, value. split; [by left|done].
  - apply Hrest.
    rewrite Forall_forall in Hall, Hv |- *. intros x Hx.
    rewrite deref_assign_apart; [by apply Hall|].
    left. by apply Hv.
Qed.

(** C1: a variable that is required and not found has its name appended to
    the accumulator and the loop goes on with the next variable; when the
    loop has processed all the variables, the accumulator holds the names of
    the required variables that are not found, in discovery order, and the
    call fails with a [NotSetError] that carries them if and only if it is
    not empty. *)
Theorem loadVars_not_set l root vars :
  kindOf root Struct = true ->
  parseVars l [] root = inr vars ->
  (forall v rest r notset,
     notFound l v = true -> required v = true ->
     loadRange l (v :: rest) r notset = loadRange l rest r (notset ++ [name v]))
  /\ (forall root' notset,
        loadRange l vars root [] = (root', inr notset) ->
        notset = missing l vars
        /\ loadVars l (ArgPtr (Some root))
           = (ArgPtr (Some root'),
              if bool_decide (notset = []) then None
              else Some (NotSetError notset)))
  /\ (forall names,
        (loadVars l (ArgPtr (Some root))).2 = Some (NotSetError names) ->
        names = missing l vars /\ names <> []
        /\ exists root', loadRange l vars root [] = (root', inr names)).
Proof.
  intros Hk Hvars.
  split; [|split].
  - intros v rest r notset Hfound Hreq.
    by rewrite loadRange_not_found, Hreq.
  - intros root' notset Hloop.
    split; [by apply loadRange_notset in Hloop|].
    unfold loadVars. simpl. rewrite Hk, Hvars, Hloop. simpl.
    by destruct notset.
  - unfold loadVars. simpl. rewrite Hk, Hvars. simpl.
    destruct (loadRange l vars root []) as [root' [e|notset]] eqn:Hloop.
    { intros names [= ->]. by apply loadRange_error in Hloop. }
    intros names Hres.
    destruct notset as [|n notset]; simpl in Hres; [done|].
    injection Hres as <-.
    split; [by apply loadRange_notset in Hloop|]. split; [done|].
    by exists root'.
Qed.

(** C7: a variable that is not found and not required changes neither the
    destination nor the accumulator, and the loop goes on; after the call,
    whatever its result, the field of the variable holds the value it held
    before; when no variable is found and none is required, the call
    returns no error and the destination as it was. *)
Theorem loadVars_default_preserved l root vars v :
  kindOf root Struct = true ->
  parseVars l [] root = inr vars ->
  v ∈ vars ->
  notFound l v = true ->
  required v = false ->
  (forall rest r notset,
     loadRange l (v :: rest) r notset = loadRange l rest r notset)
  /\ (exists root' default,
        (loadVars l (ArgPtr (Some root))).1 = ArgPtr (Some root')
        /\ deref (field v) root = Some default
        /\ deref (field v) root' = Some default)
  /\ ((forall x, x ∈ vars -> notFound l x = true /\ required x = false) ->
      loadVars l (ArgPtr (Some root)) = (ArgPtr (Some root), None)).
Proof.
  intros Hk Hvars Hv Hfound Hreq.
  split; [|split].
  - intros rest r notset. by rewrite loadRange_not_found, Hreq.
  - destruct (parseVars_handles _ _ _ _ Hvars) as [Hsorted Hall].
    rewrite Forall_forall in Hall.
    destruct (Hall _ Hv) as (r & f' & Hr & Hf' & _). simpl in Hr.
    apply fieldAt_deref in Hf'. rewrite <- Hr in Hf'.
    assert (Hsame : forall notset,
              deref (field v) (loadRange l vars root notset).1
              = deref (field v) root).
    { intros notset. apply loadRange_untouched.
      intros x Hx Hxfound.
      apply (StronglySorted_apart before field vars x v Hsorted Hx Hv).
      intros ->. congruence. }
    specialize (Hsame []).
    unfold loadVars. simpl. rewrite Hk, Hvars. simpl.
    destruct (loadRange l vars root []) as [root' [e|notset]]; simpl in *.
    + exists root', (val f'). by rewrite Hsame.
    + exists root', (val f').
      split; [by destruct (0 <? length notset)|]. by rewrite Hsame.
  - intros Hnone.
    assert (Hloop : forall notset,
              loadRange l vars root notset = (root, inr notset)).
    { clear Hvars Hv. induction vars as [|x vars IH]; intros notset; [done|].
      destruct (Hnone x) as [Hx Hxr]; [by left|].
      rewrite loadRange_not_found, Hxr by done.
      apply IH. intros y Hy. apply Hnone. by right. }
    unfold loadVars. simpl. by rewrite Hk, Hvars, Hloop.
Qed.

End load_facts.

Lemma loadVars_not_set_witness :
  (loadVars (H := ascii_lib.lib) example.l (ArgPtr (Some example.config))).2
  = Some (NotSetError ["HOST"; "KEY"]).
Proof.
  destruct (loadVars_not_set (H := ascii_lib.lib) example.l example.config _
              eq_refl eq_refl) as (_ & Hdone & _).
  edestruct Hdone as [_ ->]; [vm_compute; reflexivity|].
  reflexivity.
Defined.

Lemma loadVars_default_preserved_witness :
  exists root',
    (loadVars (H := ascii_lib.lib) example.l (ArgPtr (Some example.config))).1
    = ArgPtr (Some root')
    /\ deref [4] root' = Some (VScalar KString (SString "anonymous")).
Proof.
  assert (Hin : mkVariable "NAME" false false [4]
                ∈ [ mkVariable "PORT" false false [0];
                    mkVariable "ADDR" false true [1];
                    mkVariable "PORTS" false false [2; 0];
                    mkVariable "HOST" true false [2; 1];
                    mkVariable "SINCE" false false [3];
                    mkVariable "NAME" false false [4];
                    mkVariable "KEY" true false [5] ])
    by (do 5 apply list_elem_of_further; apply list_elem_of_here).
  destruct (loadVars_default_preserved (H := ascii_lib.lib) example.l
              example.config _ _ eq_refl eq_refl Hin eq_refl eq_refl)
    as (_ & (root' & default & Hdst & Hbefore & Hafter) & _).
  exists root'. split; [exact Hdst|].
  change (deref [4] root' = Some default) in Hafter.
  change (deref [4] example.config = Some default) in Hbefore.
  rewrite Hafter, <- Hbefore. reflexivity.
Defined.

(** ** Splitting *)

Section split_facts.

Implicit Types (s sep cur rest : string) (c : ascii).

Lemma HasPrefix_inv s sep :
  strings.HasPrefix s sep = true -> exists rest, s = sep +:+ rest.
Proof.
  revert s.
  induction sep as [|c sep IH]; intros s; simpl.
  - intros _. by exists s.
  - destruct s as [|d s]; [done|].
    intros [Hc Hs]%andb_prop.
    apply Ascii.eqb_eq in Hc as ->.
    destruct (IH _ Hs) as [rest ->]. by exists rest.
Qed.

Lemma splitFrom_skip sep s cur rest :
  strings.splitFrom sep (String.length s) cur (s +:+ rest)
  = strings.splitFrom sep 0 cur rest.
Proof.
  induction s as [|c s IH]; [done|].
  by rewrite append_cons.
Qed.

Lemma splitFrom_not_nil sep k cur s : strings.splitFrom sep k cur s <> [].
Proof.
  revert k cur.
  induction s as [|c s IH]; intros k cur; cbn [strings.splitFrom]; [done|].
  destruct k; [|apply IH].
  destruct (strings.HasPrefix (String c s) sep); [done|apply IH].
Qed.

Lemma Join_cons e elems sep :
  elems <> [] ->
  strings.Join (e :: elems) sep = e +:+ sep +:+ strings.Join elems sep.
Proof. by destruct elems. Qed.

(** The pieces of a split, joined by the separator, give the text back:
    nothing is trimmed or lost. *)
Lemma Join_splitFrom sep s cur :
  sep <> "" ->
  strings.Join (strings.splitFrom sep 0 cur s) sep = cur +:+ s.
Proof.
  intros Hsep.
  remember (String.length s) as n eqn:Hn.
  revert s cur Hn.
  induction n as [n IH] using lt_wf_ind; intros s cur ->.
  destruct s as [|c s]; [by rewrite append_nil_r|].
  cbn [strings.splitFrom].
  destruct (strings.HasPrefix (String c s) sep) eqn:Hp.
  - apply HasPrefix_inv in Hp as [rest Hrest].
    destruct sep as [|d sep]; [done|].
    rewrite append_cons in Hrest. injection Hrest as <- ->.
    change (String.length (String c sep) - 1) with (String.length sep - 0).
    rewrite Nat.sub_0_r, splitFrom_skip.
    rewrite Join_cons by apply splitFrom_not_nil.
    rewrite (IH (String.length rest)); [done| |done].
    simpl. rewrite length_append. lia.
  - rewrite (IH (String.length s)); [|simpl; lia|done].
    by rewrite append_assoc.
Qed.

Lemma Join_Split `{GoLib} s sep :
  sep <> "" -> strings.Join (strings.Split s sep) sep = s.
Proof.
  intros Hsep. unfold strings.Split.
  destruct (String.eqb_spec sep ""); [done|].
  by rewrite Join_splitFrom.
Qed.

(** On a one-byte separator, splitting undoes joining: the parts of an
    annotation are the texts between its commas. *)
Lemma HasPrefix_nil s : strings.HasPrefix s "" = true.
Proof. by destruct s. Qed.

Lemma splitFrom_byte_piece c piece cur rest :
  allBytes (fun d => negb (Ascii.eqb c d)) piece = true ->
  strings.splitFrom (String c "") 0 cur (piece +:+ String c rest)
  = (cur +:+ piece) :: strings.splitFrom (String c "") 0 "" rest.
Proof.
  revert cur.
  induction piece as [|d piece IH]; intros cur.
  - intros _. rewrite append_nil_l, append_nil_r.
    cbn [strings.splitFrom strings.HasPrefix].
    by rewrite Ascii.eqb_refl, HasPrefix_nil.
  - cbn [allBytes]. intros [Hd Hpiece]%andb_prop.
    apply negb_true_iff in Hd.
    rewrite append_cons. cbn [strings.splitFrom strings.HasPrefix].
    rewrite Hd. simpl andb. cbv iota.
    rewrite (IH _ Hpiece). by rewrite append_assoc.
Qed.

Lemma splitFrom_byte_last c piece cur :
  allBytes (fun d => negb (Ascii.eqb c d)) piece = true ->
  strings.splitFrom (String c "") 0 cur piece = [cur +:+ piece].
Proof.
  revert cur.
  induction piece as [|d piece IH]; intros cur.
  - intros _. by rewrite append_nil_r.
  - cbn [allBytes]. intros [Hd Hpiece]%andb_prop.
    apply negb_true_iff in Hd.
    cbn [strings.splitFrom strings.HasPrefix].
    rewrite Hd. simpl andb. cbv iota.
    rewrite (IH _ Hpiece). by rewrite append_assoc.
Qed.

Lemma Split_Join_byte `{GoLib} c parts :
  parts <> [] ->
  Forall (fun piece => allBytes (fun d => negb (Ascii.eqb c d)) piece = true)
    parts ->
  strings.Split (strings.Join parts (String c "")) (String c "") = parts.
Proof.
  intros Hne Hall. unfold strings.Split.
  change (String.eqb (String c "") "") with false. cbv iota.
  induction Hall as [|piece parts Hpiece Hall IH]; [done|].
  destruct parts as [|piece' parts].
  - simpl. by rewrite splitFrom_byte_last.
  - rewrite Join_cons by done.
    rewrite append_cons, append_nil_l.
    rewrite splitFrom_byte_piece by done.
    by rewrite IH.
Qed.

End split_facts.

(** ** Slices *)

Section slice_facts.
Context `{GoLib}.

Lemma setElems_ok zero s es :
  setElems zero s = inr es ->
  Forall2 (fun piece e => setValue zero piece = inr e) s es.
Proof.
  revert es.
  induction s as [|piece s IH]; intros es; simpl.
  - intros [= <-]. constructor.
  - destruct (setValue zero piece) as [err|e] eqn:E; [done|].
    destruct (setElems zero s) as [err|es']; [done|].
    intros [= <-]. constructor; auto.
Qed.

Lemma setElems_first_failure zero s err :
  setElems zero s = inl err ->
  exists converted piece later,
    s = converted ++ piece :: later
    /\ Forall (fun p => exists e, setValue zero p = inr e) converted
    /\ setValue zero piece = inl err.
Proof.
  induction s as [|piece s IH]; simpl; [done|].
  destruct (setValue zero piece) as [e|x] eqn:E.
  - intros [= <-]. exists [], piece, s. by repeat split.
  - destruct (setElems zero s) as [e|es]; [|done].
    intros [= <-].
    destruct IH as (converted & bad & later & -> & Hall & Hbad); [done|].
    exists (piece :: converted), bad, later.
    repeat split; [|done]. constructor; eauto.
Qed.

Lemma newLoader_snoc (p : Provider) (opts : list Option) (opt : Option) :
  newLoader p (opts ++ [opt]) = opt (newLoader p opts).
Proof. unfold newLoader. by rewrite fold_left_app. Qed.

(** The loop over a list of variables runs over its first part, and then,
    unless a conversion has failed, over the rest. *)
Lemma loadRange_app l vars1 vars2 root notset :
  loadRange l (vars1 ++ vars2) root notset
  = match loadRange l vars1 root notset with
    | (root1, inl err) => (root1, inl err)
    | (root1, inr names) => loadRange l vars2 root1 names
    end.
Proof.
  revert root notset.
  induction vars1 as [|v vars1 IH]; intros root notset; [done|].
  simpl.
  destruct (lookupEnv l (name v) (expand v)) as [value []]; simpl;
    [|apply IH].
  destruct (deref (field v) root) as [fv|]; [|done].
  destruct (bind l fv value) as [e|fv']; [done|apply IH].
Qed.

(** C8: in a call of [LoadFrom] on a pointer to a struct, take a variable
    that discovery finds, whose value is found in the source and whose field
    is a slice without the textual-unmarshal capability.  The value is split
    on the separator of the loader, which is a space unless
    [WithSliceSeparator] sets it; the pieces, joined by the separator, give
    the value back, so nothing is trimmed; each piece is converted on its own
    into an element.  If the conversion of a variable discovered earlier
    fails, the call returns that error and the field keeps its content.
    Otherwise, if the conversion of a piece fails, the call returns the error
    of the first piece that fails and the field keeps its content; and if
    every piece converts, then after the call the field holds the slice of
    the converted elements, in order, whatever it held before. *)
Theorem loadVars_slice (p : Provider) (opts : list Option) (root : Value)
    (pre : list variable) (x : variable) (post : list variable)
    (raw : string) (zero : Value) (old : list Value) :
  let l := newLoader p opts in
  let pieces := strings.Split raw (sliceSep l) in
  kindOf root Struct = true ->
  parseVars l [] root = inr (pre ++ x :: post) ->
  lookupEnv l (name x) (expand x) = (raw, true) ->
  deref (field x) root = Some (VSlice zero old) ->
  sliceSep (newLoader p []) = " "
  /\ (forall sep,
        sliceSep (newLoader p (opts ++ [WithSliceSeparator sep])) = sep)
  /\ (sliceSep l <> "" -> strings.Join pieces (sliceSep l) = raw)
  /\ exists root' result,
       LoadFrom p (ArgPtr (Some root)) opts = (ArgPtr (Some root'), result)
       /\ match loadRange l pre root [] with
          | (_, inl earlier) =>
              result = Some earlier
              /\ deref (field x) root' = Some (VSlice zero old)
          | (root1, inr _) =>
              match setElems zero pieces with
              | inl err =>
                  (exists converted piece later,
                     pieces = converted ++ piece :: later
                     /\ Forall (fun s => exists e, setValue zero s = inr e)
                          converted
                     /\ setValue zero piece = inl err)
                  /\ result = Some err
                  /\ root' = root1
                  /\ deref (field x) root' = Some (VSlice zero old)
              | inr es =>
                  Forall2 (fun piece e => setValue zero piece = inr e)
                    pieces es
                  /\ deref (field x) root' = Some (VSlice zero es)
              end
          end.
Proof.
  intros l pieces Hk Hvars Hfound Hfield.
  split; [done|]. split; [intros sep; by rewrite newLoader_snoc|].
  split; [apply Join_Split|].
  destruct (parseVars_handles _ _ _ _ Hvars) as [Hsorted _].
  rewrite fmap_app, fmap_cons in Hsorted.
  assert (Hpre : forall root1 r,
            loadRange l pre root [] = (root1, r) ->
            deref (field x) root1 = Some (VSlice zero old)).
  { intros root1 r E.
    replace root1 with (loadRange l pre root []).1 by (by rewrite E).
    rewrite loadRange_untouched; [done|].
    intros y Hy _. left.
    apply (StronglySorted_app_1_elem_of _ _ _ _ _ Hsorted);
      [by apply list_elem_of_fmap_2|by left]. }
  assert (Hpost : forall root1 ns,
            deref (field x) (loadRange l post root1 ns).1
            = deref (field x) root1).
  { intros root1 ns. apply loadRange_untouched. intros y Hy _. right.
    apply StronglySorted_app_1_r in Hsorted.
    apply StronglySorted_cons in Hsorted as [Hx _].
    rewrite Forall_forall in Hx. apply Hx. by apply list_elem_of_fmap_2. }
  unfold LoadFrom, loadVars. fold l. simpl. rewrite Hk, Hvars. simpl.
  rewrite loadRange_app.
  destruct (loadRange l pre root []) as [root1 [earlier|ns]] eqn:Epre.
  { exists root1, (Some earlier). split; [done|]. split; [done|].
    by eapply Hpre. }
  pose proof (Hpre _ _ eq_refl) as Hfield1.
  simpl. rewrite Hfound. simpl. rewrite Hfield1.
  unfold bind. simpl. fold pieces.
  destruct (setElems zero pieces) as [err|es] eqn:E.
  { exists root1, (Some err). split; [done|].
    split; [by apply setElems_first_failure|done]. }
  specialize (Hpost (assign (field x) (VSlice zero es) root1) ns).
  rewrite deref_assign_same in Hpost by (by rewrite Hfield1).
  destruct (loadRange l post (assign (field x) (VSlice zero es) root1) ns)
    as [root2 [later|names]]; simpl in Hpost.
  - exists root2, (Some later). split; [done|].
    split; [by apply setElems_ok|done].
  - destruct (0 <? length names);
      eexists root2, _; (split; [reflexivity|]);
      (split; [by apply setElems_ok|done]).
Qed.

End slice_facts.

Lemma loadVars_slice_witness :
  (exists root' result,
     LoadFrom (H := ascii_lib.lib) (Map example.source)
       (ArgPtr (Some example.config)) [WithSliceSeparator ";"]
     = (ArgPtr (Some root'), result)
     /\ deref [2; 0] root'
        = Some (VSlice (VScalar (KInt 64) (SInt 0))
                  [ VScalar (KInt 64) (SInt 8080);
                    VScalar (KInt 64) (SInt 8081);
                    VScalar (KInt 64) (SInt 8082) ]))
  /\ (exists root',
        LoadFrom (H := ascii_lib.lib) (Map typoSource)
          (ArgPtr (Some example.config)) [WithSliceSeparator ";"]
        = (ArgPtr (Some root'), Some (ConversionError "invalid syntax"))
        /\ deref [2; 0] root' = Some (VSlice (VScalar (KInt 64) (SInt 0)) [])).
Proof.
  split.
  - destruct (loadVars_slice (H := ascii_lib.lib) (Map example.source)
                [WithSliceSeparator ";"] example.config
                [ mkVariable "PORT" false false [0];
                  mkVariable "ADDR" false true [1] ]
                (mkVariable "PORTS" false false [2; 0])
                [ mkVariable "HOST" true false [2; 1];
                  mkVariable "SINCE" false false [3];
                  mkVariable "NAME" false false [4];
                  mkVariable "KEY" true false [5] ]
                "8080;8081;8082" (VScalar (KInt 64) (SInt 0)) []
                eq_refl eq_refl eq_refl eq_refl)
      as (_ & _ & _ & root' & result & Hcall & Hbound).
    vm_compute in Hbound. destruct Hbound as [_ Hfield].
    exists root', result. split; [exact Hcall|exact Hfield].
  - destruct (loadVars_slice (H := ascii_lib.lib) (Map typoSource)
                [WithSliceSeparator ";"] example.config
                [ mkVariable "PORT" false false [0];
                  mkVariable "ADDR" false true [1] ]
                (mkVariable "PORTS" false false [2; 0])
                [ mkVariable "HOST" true false [2; 1];
                  mkVariable "SINCE" false false [3];
                  mkVariable "NAME" false false [4];
                  mkVariable "KEY" true false [5] ]
                "80;x;82" (VScalar (KInt 64) (SInt 0)) []
                eq_refl eq_refl eq_refl eq_refl)
      as (_ & _ & _ & root' & result & Hcall & Hbound).
    vm_compute in Hbound. destruct Hbound as (_ & -> & _ & Hfield).
    exists root'. split; [exact Hcall|exact Hfield].
Defined.

(** ** Annotations on nested structs *)

Section retag_facts.
Context `{GoLib}.

Implicit Types (l : loader) (h : Handle) (f : StructField Value)
  (fs : list (StructField Value)) (v root : Value).

(** Discovery over fields does not change when a field is replaced by one
    that discovery treats alike. *)
Lemma parseFields_alter rec l h fs i i0 g :
  (forall f, fs !! i = Some f ->
     forall j, parseFields rec l h [g f] j [] = parseFields rec l h [f] j []) ->
  parseFields rec l h (alter g i fs) i0 []
  = parseFields rec l h fs i0 [].
Proof.
  revert i i0.
  induction fs as [|f fs IH]; intros i i0 Hsame; [done|].
  destruct i as [|i].
  - change (alter g 0 (f :: fs)) with (g f :: fs).
    rewrite parseFields_cons, (parseFields_cons _ _ _ f fs).
    by rewrite Hsame.
  - change (alter g (S i) (f :: fs)) with (f :: alter g i fs).
    rewrite parseFields_cons, (parseFields_cons _ _ _ f fs).
    rewrite IH; [done|]. intros f' Hf'. by apply Hsame.
Qed.

Lemma nestedStruct_retag h tag v : nestedStruct (retag h tag v) = nestedStruct v.
Proof.
  destruct h as [|i h]; [done|].
  unfold nestedStruct, kindOf. simpl.
  by rewrite KindOf_withFields, implements_withFields.
Qed.

Lemma fieldAt_retag h tag root f :
  fieldAt h root = Some f ->
  fieldAt h (retag h tag root) = Some (mkField (exported f) tag (val f)).
Proof.
  revert root.
  induction h as [|i h IH]; intros root; [done|].
  simpl. rewrite Fields_withFields_alter, list_lookup_alter_eq.
  destruct (Fields root !! i) as [f0|]; [|done]. simpl.
  destruct h as [|j h]; [by intros [= ->]|].
  apply IH.
Qed.

(** C10: the annotation of a settable field of kind struct without the
    textual-unmarshal capability is never read: whatever annotation the
    field carries, well formed or not, at whatever depth, discovery of the
    destination gives the same result, variables or error. *)
Theorem parseVars_nested_tag_ignored l root h f tag :
  fieldAt h root = Some f ->
  exported f = true ->
  nestedStruct (val f) = true ->
  fieldAt h (retag h tag root) = Some (mkField (exported f) tag (val f))
  /\ forall h0, parseVars l h0 (retag h tag root) = parseVars l h0 root.
Proof.
  intros Hf Hexp Hnest.
  split; [by apply fieldAt_retag|].
  revert root Hf.
  induction h as [|i h IH]; intros root Hf h0; [done|].
  rewrite !parseVars_Fields. unfold discoverFields.
  simpl retag. rewrite Fields_withFields_alter.
  apply parseFields_alter.
  intros f0 Hf0 j.
  simpl in Hf. rewrite Hf0 in Hf.
  rewrite !parseFields_single.
  destruct h as [|k h].
  - injection Hf as ->. simpl. by rewrite Hexp, Hnest.
  - cbn [exported val envTag].
    rewrite nestedStruct_retag.
    destruct (negb (exported f0)); [done|].
    destruct (nestedStruct (val f0)); [|done].
    by apply IH.
Qed.

End retag_facts.

Lemma parseVars_nested_tag_ignored_witness :
  fieldAt [2] example.config
  = Some (mkField true (Some ",oops")
            (VStruct
               [ mkField true (Some "PORTS")
                   (VSlice (VScalar (KInt 64) (SInt 0)) []);
                 mkField true (Some "HOST,required")
                   (VScalar KString (SString "localhost")) ]))
  /\ parseVars (H := ascii_lib.lib) example.l [] example.config
     = parseVars (H := ascii_lib.lib) example.l []
         (retag [2] None example.config).
Proof.
  split; [reflexivity|].
  destruct (parseVars_nested_tag_ignored (H := ascii_lib.lib) example.l
              example.config [2] _ None eq_refl eq_refl eq_refl)
    as [_ Hsame].
  symmetry. apply Hsame.
Defined.

(** ** Annotations that discovery does not read *)

(** C5 (as stated) fails: a field whose annotation has an empty name does
    not make discovery fail with [ErrEmptyTagName] when the field is not
    settable, nor when it is a nested struct that is recursed into, nor when
    a field declared before it has already made discovery fail. *)
Lemma parseVars_empty_tag_name_unread :
  ~ (forall (H : GoLib) l root h f tag options,
       fieldAt h root = Some f ->
       envTag f = Some tag ->
       strings.Split tag "," = "" :: options ->
       parseVars l [] root = inl ErrEmptyTagName)
  /\ ~ (forall (H : GoLib) l root h f tag options,
          fieldAt h root = Some f ->
          exported f = true ->
          envTag f = Some tag ->
          strings.Split tag "," = "" :: options ->
          parseVars l [] root = inl ErrEmptyTagName)
  /\ ~ (forall (H : GoLib) l root h f tag options,
          fieldAt h root = Some f ->
          exported f = true ->
          nestedStruct (val f) = false ->
          envTag f = Some tag ->
          strings.Split tag "," = "" :: options ->
          parseVars l [] root = inl ErrEmptyTagName).
Proof.
  split; [|split]; intros Hclaim.
  - specialize (Hclaim ascii_lib.lib example.l
                  (VStruct [example.hiddenField]) [0] example.hiddenField
                  ",required" ["required"] eq_refl eq_refl eq_refl).
    vm_compute in Hclaim. discriminate Hclaim.
  - specialize (Hclaim ascii_lib.lib example.l example.config [2] _
                  ",oops" ["oops"] eq_refl eq_refl eq_refl eq_refl).
    vm_compute in Hclaim. discriminate Hclaim.
  - specialize (Hclaim ascii_lib.lib example.l
                  (VStruct [example.optionalField; example.unnamedField])
                  [1] example.unnamedField ",required" ["required"]
                  eq_refl eq_refl eq_refl eq_refl eq_refl).
    vm_compute in Hclaim. discriminate Hclaim.
Qed.

(** C6 (as stated) fails: an option that is neither [required] nor [expand]
    does not make discovery fail with the error that carries it when the
    name of the annotation is empty ([ErrEmptyTagName] comes first), when an
    earlier option of the annotation is already refused (the error carries
    that one), when the field is not settable, or when it is a nested struct
    that is recursed into. *)
Lemma parseVars_tag_options_unread :
  ~ (forall (H : GoLib) l root h f tag NAME options option,
       fieldAt h root = Some f ->
       exported f = true ->
       nestedStruct (val f) = false ->
       envTag f = Some tag ->
       strings.Split tag "," = NAME :: options ->
       option ∈ options ->
       ~ recognized option ->
       parseVars l [] root = inl (Errorf_w_q ErrInvalidTagOption option))
  /\ ~ (forall (H : GoLib) l root h f tag NAME options option,
          fieldAt h root = Some f ->
          exported f = true ->
          nestedStruct (val f) = false ->
          envTag f = Some tag ->
          strings.Split tag "," = NAME :: options ->
          NAME <> "" ->
          option ∈ options ->
          ~ recognized option ->
          parseVars l [] root = inl (Errorf_w_q ErrInvalidTagOption option))
  /\ ~ (forall (H : GoLib) l root h f tag NAME options option,
          fieldAt h root = Some f ->
          envTag f = Some tag ->
          strings.Split tag "," = NAME :: options ->
          NAME <> "" ->
          options = [option] ->
          ~ recognized option ->
          parseVars l [] root = inl (Errorf_w_q ErrInvalidTagOption option))
  /\ ~ (forall (H : GoLib) l root h f tag NAME options option,
          fieldAt h root = Some f ->
          exported f = true ->
          envTag f = Some tag ->
          strings.Split tag "," = NAME :: options ->
          NAME <> "" ->
          options = [option] ->
          ~ recognized option ->
          parseVars l [] root = inl (Errorf_w_q ErrInvalidTagOption option)).
Proof.
  assert (Hoops : ~ recognized "oops") by (intros [?|?]; discriminate).
  assert (Hunknown : ~ recognized "unknown") by (intros [?|?]; discriminate).
  split; [|split; [|split]]; intros Hclaim.
  - specialize (Hclaim ascii_lib.lib example.l
                  (VStruct [example.unnamedOopsField]) [0]
                  example.unnamedOopsField ",oops" "" ["oops"] "oops"
                  eq_refl eq_refl eq_refl eq_refl eq_refl
                  (list_elem_of_here _ _) Hoops).
    vm_compute in Hclaim. discriminate Hclaim.
  - assert (Hname : "KEY" <> "" :> string) by discriminate.
    specialize (Hclaim ascii_lib.lib example.l
                  (VStruct [example.unknownField]) [0]
                  example.unknownField "KEY,optional,unknown" "KEY"
                  ["optional"; "unknown"] "unknown"
                  eq_refl eq_refl eq_refl eq_refl eq_refl Hname
                  (list_elem_of_further _ _ _ (list_elem_of_here _ _))
                  Hunknown).
    vm_compute in Hclaim. discriminate Hclaim.
  - assert (Hname : "KEY" <> "" :> string) by discriminate.
    specialize (Hclaim ascii_lib.lib example.l
                  (VStruct [example.hiddenOopsField]) [0]
                  example.hiddenOopsField "KEY,oops" "KEY" ["oops"] "oops"
                  eq_refl eq_refl eq_refl Hname eq_refl Hoops).
    vm_compute in Hclaim. discriminate Hclaim.
  - assert (Hname : "HTTP" <> "" :> string) by discriminate.
    specialize (Hclaim ascii_lib.lib example.l
                  (VStruct [example.nestedOopsField]) [0]
                  example.nestedOopsField "HTTP,oops" "HTTP" ["oops"] "oops"
                  eq_refl eq_refl eq_refl eq_refl Hname eq_refl Hoops).
    vm_compute in Hclaim. discriminate Hclaim.
Qed.

(** * Further properties *)

(** ** Composition of sources *)

Section providers_composition.

Implicit Types (ps : list Provider) (p : Provider) (key : string).

Lemma MultiProvider_snoc ps p key :
  LookupEnv (MultiProvider (ps ++ [p])) key
  = override (LookupEnv (MultiProvider ps) key)
      (if (LookupEnv p key).2 then LookupEnv p key else ("", false)).
Proof.
  unfold MultiProvider, providers_LookupEnv, LookupEnv at 1 2, providers_run.
  rewrite providers_range_app. simpl.
  unfold override.
  by destruct (LookupEnv p key) as [v []].
Qed.

Lemma MultiProvider_nil key : LookupEnv (MultiProvider []) key = ("", false).
Proof. done. Qed.

Lemma MultiProvider_app ps1 ps2 key :
  LookupEnv (MultiProvider (ps1 ++ ps2)) key
  = override (LookupEnv (MultiProvider ps1) key)
             (LookupEnv (MultiProvider ps2) key).
Proof.
  induction ps2 as [|p ps2 IH] using rev_ind.
  - by rewrite app_nil_r.
  - rewrite app_assoc, !MultiProvider_snoc, IH. unfold override.
    destruct (LookupEnv p key) as [v []]; simpl; [done|].
    by destruct (LookupEnv (MultiProvider ps2) key) as [v2 []].
Qed.

End providers_composition.

(** X1: merging is associative and has the empty merge as unit.  The lookup
    of a merge of two lists of sources put end to end is the answer of the
    merge of the second list when that one finds the key, and else the
    answer of the merge of the first; a merge of merges is the merge of the
    lists put end to end; the empty merge finds nothing. *)
Theorem MultiProvider_flatten (pss : list (list Provider))
    (ps1 ps2 : list Provider) (key : string) :
  LookupEnv (MultiProvider (ps1 ++ ps2)) key
  = override (LookupEnv (MultiProvider ps1) key)
             (LookupEnv (MultiProvider ps2) key)
  /\ LookupEnv (MultiProvider (MultiProvider <$> pss)) key
     = LookupEnv (MultiProvider (concat pss)) key
  /\ LookupEnv (MultiProvider []) key = ("", false).
Proof.
  split; [apply MultiProvider_app|]. split; [|done].
  induction pss as [|ps pss IH] using rev_ind; [done|].
  rewrite fmap_app, concat_app. simpl. rewrite app_nil_r.
  rewrite MultiProvider_snoc, MultiProvider_app, IH.
  f_equal.
  destruct (LookupEnv (MultiProvider ps) key) as [v ok] eqn:E.
  destruct ok; [done|].
  pose proof (MultiProvider_emptyWhenMissing ps key) as Hempty.
  rewrite E in Hempty. simpl in *. by rewrite Hempty.
Qed.

(** X2: a merge of in-memory sources is the in-memory source of the union
    of their maps, in which a later map takes precedence over an earlier
    one. *)
Theorem MultiProvider_Map_union (ms : list (gmap string string))
    (key : string) :
  LookupEnv (MultiProvider (Map <$> ms)) key
  = LookupEnv (Map (⋃ (reverse ms))) key.
Proof.
  induction ms as [|m ms IH] using rev_ind; [done|].
  rewrite fmap_app, reverse_app. simpl.
  rewrite MultiProvider_snoc, IH.
  unfold LookupEnv, Map, override.
  change (union_list (m :: reverse ms)) with (m ∪ ⋃ reverse ms).
  destruct (m !! key) as [value|] eqn:E; simpl.
  - by rewrite (lookup_union_Some_l _ _ _ _ E).
  - by rewrite (lookup_union_r _ _ _ E).
Qed.

(** ** The options *)

Lemma newLoader_settings_from (ss : list setting) (l : loader) :
  fold_left (fun l opt => opt l) (settingOption <$> ss) l
  = mkLoader (provider l) (lastPrefix (prefix l) ss)
             (lastSliceSeparator (sliceSep l) ss).
Proof.
  revert l.
  induction ss as [|[pre|sep] ss IH]; intros l; simpl.
  - by destruct l.
  - by rewrite IH.
  - by rewrite IH.
Qed.

(** X3: the options are applied in order and only set what they name: for
    any sequence of [WithPrefix] and [WithSliceSeparator], the loader has
    the given source, the prefix of the last [WithPrefix] (none: the empty
    prefix) and the separator of the last [WithSliceSeparator] (none: a
    space). *)
Theorem newLoader_settings (p : Provider) (ss : list setting) :
  newLoader p (settingOption <$> ss)
  = mkLoader p (lastPrefix "" ss) (lastSliceSeparator " " ss).
Proof. unfold newLoader. by rewrite newLoader_settings_from. Qed.

(** ** What discovery finds *)

Section discovery_extras.
Context `{GoLib}.

Implicit Types (l : loader) (h : Handle) (f : StructField Value)
  (fs : list (StructField Value)) (vars : list variable) (v : Value)
  (x : variable).

Lemma discoverable_Fields h v f :
  discoverable h v f <-> discoverable h (VStruct (Fields v)) f.
Proof.
  split; inversion 1; subst;
    [eapply discoverable_field|eapply discoverable_nested
    |eapply discoverable_field|eapply discoverable_nested]; eauto.
Qed.

Lemma discoverable_cons j r g fs f :
  discoverable (j :: r) (VStruct fs) f ->
  discoverable (S j :: r) (VStruct (g :: fs)) f.
Proof.
  inversion 1; subst;
    [eapply discoverable_field|eapply discoverable_nested]; eauto.
Qed.

(** An annotation yields no variable or one, with the handle of the
    field. *)
Lemma tagVariable_shape l fh tag vs :
  tagVariable l fh tag = inr vs ->
  (tag = None /\ vs = []) \/ (is_Some tag /\ exists x, vs = [x] /\ field x = fh).
Proof.
  destruct tag as [value|]; simpl; [|intros [= <-]; by left].
  destruct (String.eqb _ ""); [done|].
  destruct (parseOptions _ false false) as [err|[req exp]]; [done|].
  simpl. intros [= <-]. right. split; [by eexists|]. by eexists.
Qed.

Lemma parseFields_sound l h fs i vars :
  Forall (fun f => forall h' vars',
            parseVars l h' (val f) = inr vars' ->
            Forall (fun x => exists r f',
                      field x = h' ++ r /\ discoverable r (val f) f'
                      /\ tagVariable l (field x) (envTag f') = inr [x])
                   vars') fs ->
  parseFields (parseVars l) l h fs i [] = inr vars ->
  Forall (fun x => exists j r f',
            field x = h ++ (i + j) :: r
            /\ discoverable (j :: r) (VStruct fs) f'
            /\ tagVariable l (field x) (envTag f') = inr [x]) vars.
Proof.
  intros Hrec. revert i vars.
  induction Hrec as [|f fs Hf _ IH]; intros i vars.
  { intros [= <-]. constructor. }
  rewrite parseFields_cons.
  destruct (parseFields (parseVars l) l h [f] i []) as [err|vs] eqn:Ef;
    [done|].
  destruct (parseFields (parseVars l) l h fs (S i) []) as [err|vs'] eqn:Efs;
    [done|].
  simpl. intros [= <-].
  apply Forall_app. split.
  - change (discoverField l h i f = inr vs) in Ef.
    destruct (exported f) eqn:Eexp.
    2:{ unfold discoverField, discoverFields in Ef.
        rewrite parseFields_single, Eexp in Ef. injection Ef as <-.
        constructor. }
    destruct (nestedStruct (val f)) eqn:Enest.
    + rewrite discoverField_nested in Ef by done.
      eapply Forall_impl; [exact (Hf _ _ Ef)|].
      intros x (r & f' & Hx & Hr & Hb). exists 0, r, f'.
      split; [by rewrite Hx, <- app_assoc, Nat.add_0_r|]. split; [|done].
      by eapply discoverable_nested.
    + rewrite discoverField_leaf in Ef by done.
      destruct (tagVariable_shape _ _ _ _ Ef)
        as [[_ ->]|[Htag (x & -> & Hx)]]; constructor; [|constructor].
      exists 0, [], f. split; [by rewrite Hx, Nat.add_0_r|].
      split; [|by rewrite Hx]. by apply discoverable_field.
  - eapply Forall_impl; [exact (IH _ _ Efs)|].
    intros x (j & r & f' & Hx & Hr & Hb). exists (S j), r, f'.
    split; [by rewrite Hx, Nat.add_succ_r|].
    split; [by apply discoverable_cons|done].
Qed.

Lemma parseVars_sound l h v vars :
  parseVars l h v = inr vars ->
  Forall (fun x => exists r f,
            field x = h ++ r /\ discoverable r v f
            /\ tagVariable l (field x) (envTag f) = inr [x]) vars.
Proof.
  revert h vars.
  induction v as [k y|fs IH|zero es _ _|t u IH|t]
    using Value_nested_ind; intros h vars; simpl;
    try (intros [= <-]; constructor).
  - intros Hvars.
    eapply Forall_impl; [exact (parseFields_sound _ _ _ _ _ IH Hvars)|].
    intros x (j & r & f' & Hx & Hr & Hb). by exists (j :: r), f'.
  - intros Hvars.
    eapply Forall_impl; [exact (IH _ _ Hvars)|].
    intros x (r & f' & Hx & Hr & Hb). exists r, f'.
    split; [done|]. split; [|done].
    apply discoverable_Fields. by apply discoverable_Fields in Hr.
Qed.

Lemma append_not_nil (s t : string) : t <> "" -> s +:+ t <> "".
Proof.
  intros Ht. destruct s; [done|]. by rewrite append_cons.
Qed.

(** What an annotation that yields a variable says of it. *)
Lemma tagVariable_name l fh tag x :
  tagVariable l fh tag = inr [x] ->
  exists value NAME options,
    tag = Some value
    /\ strings.Split value "," = NAME :: options
    /\ NAME <> ""
    /\ name x = prefix l +:+ NAME
    /\ parseOptions options false false = inr (required x, expand x).
Proof.
  destruct tag as [value|]; [|done].
  unfold tagVariable.
  destruct (strings.Split value ",") as [|NAME options] eqn:Eparts; [done|].
  simpl.
  destruct (String.eqb_spec NAME "") as [->|Hname]; [done|].
  destruct (parseOptions options false false) as [err|[req exp]] eqn:Eopt;
    [done|].
  simpl. intros [= <-]. by exists value, NAME, options.
Qed.

(** X4: every variable that discovery returns comes from a bindable field
    that is reached through settable nested structs; its handle is that of
    the field, its name is the prefix followed by the first comma-separated
    part of the annotation of the field, which is not empty, and its flags
    are those of the remaining parts.  In particular no variable has an
    empty name. *)
Theorem parseVars_variables l h0 v vars x :
  parseVars l h0 v = inr vars ->
  x ∈ vars ->
  exists h f tag NAME options,
    field x = h0 ++ h
    /\ discoverable h v f
    /\ envTag f = Some tag
    /\ strings.Split tag "," = NAME :: options
    /\ NAME <> ""
    /\ name x = prefix l +:+ NAME
    /\ parseOptions options false false = inr (required x, expand x)
    /\ name x <> "".
Proof.
  intros Hvars Hx.
  pose proof (parseVars_sound _ _ _ _ Hvars) as Hall.
  rewrite Forall_forall in Hall.
  destruct (Hall _ Hx) as (h & f & Hfield & Hdisc & Htag).
  destruct (tagVariable_name _ _ _ _ Htag)
    as (tag & NAME & options & Etag & Eparts & Hname & Hn & Hopts).
  exists h, f, tag, NAME, options.
  repeat split; try done.
  rewrite Hn. by apply append_not_nil.
Qed.

Lemma before_irrefl h : ~ before h h.
Proof.
  intros (common & i & j & r1 & r2 & E1 & E2 & Hij).
  rewrite E1 in E2. apply app_inv_head in E2. simplify_eq. lia.
Qed.

Lemma StronglySorted_NoDup {A} (R : relation A) (xs : list A) :
  (forall a, ~ R a a) -> StronglySorted R xs -> NoDup xs.
Proof.
  intros Hirr. induction 1 as [|a xs _ IH Ha]; constructor; [|done].
  intros Hin. rewrite Forall_forall in Ha. by apply (Hirr a), Ha.
Qed.

(** X5: discovery misses no field and emits none twice: when it succeeds,
    every bindable field that is reached through settable nested structs
    has a variable with its handle, the one its annotation yields, and the
    handles of the variables are pairwise distinct. *)
Theorem parseVars_complete l h0 v vars h f :
  parseVars l h0 v = inr vars ->
  discoverable h v f ->
  NoDup (field <$> vars)
  /\ exists x,
       x ∈ vars /\ field x = h0 ++ h
       /\ tagVariable l (h0 ++ h) (envTag f) = inr [x].
Proof.
  intros Hvars Hdisc.
  split.
  { destruct (parseVars_handles _ _ _ _ Hvars) as [Hsorted _].
    eapply StronglySorted_NoDup; [apply before_irrefl|done]. }
  revert h0 vars Hvars.
  induction Hdisc as [i v f Hi Hb|i h v g f Hi Hexp Hnest _ IH];
    intros h0 vars Hvars.
  - destruct Hb as (Hexp & Hnest & Htag).
    pose proof (take_drop_middle _ _ _ Hi) as Hsplit. symmetry in Hsplit.
    rewrite (parseVars_split _ _ _ _ _ _ Hsplit) in Hvars.
    rewrite length_take_le in Hvars
      by (apply lookup_lt_Some in Hi; lia).
    destruct (discoverFields l h0 0 (take i (Fields v))) as [e|vs1]; [done|].
    rewrite discoverField_leaf in Hvars by done.
    destruct (tagVariable l (h0 ++ [i]) (envTag f)) as [e|vs] eqn:Ef;
      [done|].
    destruct (discoverFields l h0 (S i) _) as [e|vs2]; [done|].
    simpl in Hvars. injection Hvars as <-.
    destruct (tagVariable_shape _ _ _ _ Ef)
      as [[Hnone _]|[_ (x & -> & Hx)]].
    { rewrite Hnone in Htag. by destruct Htag. }
    exists x. split; [|done].
    rewrite !elem_of_app. right. left. by left.
  - pose proof (take_drop_middle _ _ _ Hi) as Hsplit. symmetry in Hsplit.
    rewrite (parseVars_split _ _ _ _ _ _ Hsplit) in Hvars.
    rewrite length_take_le in Hvars
      by (apply lookup_lt_Some in Hi; lia).
    destruct (discoverFields l h0 0 (take i (Fields v))) as [e|vs1]; [done|].
    rewrite discoverField_nested in Hvars by done.
    destruct (parseVars l (h0 ++ [i]) (val g)) as [e|vs] eqn:Eg; [done|].
    destruct (discoverFields l h0 (S i) _) as [e|vs2]; [done|].
    simpl in Hvars. injection Hvars as <-.
    destruct (IH _ _ Eg) as (x & Hx & Hfield & Htag).
    rewrite <- app_assoc in Hfield, Htag.
    exists x. split; [|done].
    rewrite !elem_of_app. right. by left.
Qed.

End discovery_extras.

(** ** The prefix and the syntax of annotations *)

Section prefix_facts.
Context `{GoLib}.

Implicit Types (l : loader) (h : Handle) (f : StructField Value)
  (fs : list (StructField Value)) (v : Value).

Lemma parseFields_prefix rec1 rec2 l pre h fs i :
  Forall (fun f => forall h',
            rec1 h' (val f)
            = sum_map id (fmap (prefixed pre)) (rec2 h' (val f))) fs ->
  parseFields rec1 (withPrefix pre l) h fs i []
  = sum_map id (fmap (prefixed pre))
      (parseFields rec2 (withPrefix "" l) h fs i []).
Proof.
  intros Hrec. revert i.
  induction Hrec as [|f fs Hf _ IH]; intros i; [done|].
  rewrite parseFields_cons, (parseFields_cons rec2), IH.
  assert (Hsingle : parseFields rec1 (withPrefix pre l) h [f] i []
                    = sum_map id (fmap (prefixed pre))
                        (parseFields rec2 (withPrefix "" l) h [f] i [])).
  { rewrite !parseFields_single.
    destruct (negb (exported f)); [done|].
    destruct (nestedStruct (val f)); [apply Hf|].
    destruct (envTag f) as [value|]; [|done]. simpl.
    destruct (String.eqb _ ""); [done|].
    by destruct (parseOptions _ false false) as [err|[req exp]]. }
  rewrite Hsingle.
  destruct (parseFields rec2 (withPrefix "" l) h [f] i []) as [e|vs];
    [done|].
  destruct (parseFields rec2 (withPrefix "" l) h fs (S i) []) as [e|vs'];
    [done|].
  simpl. by rewrite fmap_app.
Qed.

(** X6: the prefix only changes the names: with a prefix, discovery fails
    with the same error as without, or returns the same variables, fields
    and flags, each name with the prefix put before it. *)
Theorem parseVars_prefix l pre h v :
  parseVars (withPrefix pre l) h v
  = sum_map id (fmap (prefixed pre)) (parseVars (withPrefix "" l) h v).
Proof.
  revert h.
  induction v as [k y|fs IH|zero es _ _|t u IH|t]
    using Value_nested_ind; intros h; simpl; try done.
  apply parseFields_prefix.
  eapply Forall_impl; [exact IH|]. intros f Hf h'. apply Hf.
Qed.

(** X7: the parts of an annotation are the texts between its commas, taken
    verbatim.  Take a struct with a settable field that is not recursed into
    and is annotated with a name and options joined by commas (none of them
    containing a comma).  Discovery of the struct is discovery of the fields
    before it, then of this field, then of the fields after it, the first
    error ending it: this field fails with [ErrEmptyTagName] when the name
    is empty, and else yields what the options give for the variable that is
    named by the prefix and the name and whose handle is that of the
    field. *)
Theorem parseVars_tag_parts l h v fs1 f fs2 NAME options :
  Fields v = fs1 ++ f :: fs2 ->
  exported f = true ->
  kindOf (val f) Struct && negb (implements_unmarshalerIface (val f)) = false ->
  envTag f = Some (strings.Join (NAME :: options) ",") ->
  Forall (fun part => without "," part = true) (NAME :: options) ->
  parseVars l h v
  = vs1 ← parseVars l h (VStruct fs1);
    leaf ← (if String.eqb NAME "" then inl ErrEmptyTagName
            else
              '(required, expand) ← parseOptions options false false;
              inr [mkVariable (prefix l +:+ NAME) required expand
                              (h ++ [length fs1])]);
    vs2 ← parseFields (parseVars l) l h fs2 (S (length fs1)) [];
    inr (vs1 ++ leaf ++ vs2).
Proof.
  intros Hfs Hexp Hnest Htag Hparts.
  rewrite (parseVars_split _ _ _ _ _ _ Hfs).
  rewrite discoverField_leaf by done.
  rewrite Htag. unfold tagVariable.
  by rewrite (Split_Join_byte "," (NAME :: options)).
Qed.

End prefix_facts.

(** ** The outcome of a call *)

Section load_extras.
Context `{GoLib}.

Implicit Types (l : loader) (h : Handle) (v x : variable)
  (vars : list variable) (root : Value) (notset : list string).

(** The handles of discovery point into the destination and part from one
    another. *)
Lemma parseVars_valid l root vars :
  parseVars l [] root = inr vars ->
  StronglySorted before (field <$> vars)
  /\ Forall (fun x => is_Some (deref (field x) root)) vars.
Proof.
  intros Hvars. destruct (parseVars_handles _ _ _ _ Hvars) as [Hs Ha].
  split; [done|].
  eapply Forall_impl; [exact Ha|].
  intros x (r & f & Hx & Hf & _). simpl in Hx. rewrite Hx.
  apply fieldAt_deref in Hf. by eexists.
Qed.

Lemma valid_after_assign v vars root new :
  Forall (before (field v)) (field <$> vars) ->
  Forall (fun x => is_Some (deref (field x) root)) vars ->
  Forall (fun x => is_Some (deref (field x) (assign (field v) new root))) vars.
Proof.
  rewrite Forall_fmap, !Forall_forall. intros Hv Hall x Hx.
  rewrite deref_assign_apart; [by apply Hall|].
  left. by apply Hv.
Qed.

(** When the loop ends, the field of every variable that is found holds the
    conversion of the value found. *)
Lemma loadRange_bound l vars root notset root' names x value :
  StronglySorted before (field <$> vars) ->
  Forall (fun y => is_Some (deref (field y) root)) vars ->
  loadRange l vars root notset = (root', inr names) ->
  x ∈ vars ->
  lookupEnv l (name x) (expand x) = (value, true) ->
  exists old new,
    deref (field x) root = Some old
    /\ bind l old value = inr new
    /\ deref (field x) root' = Some new.
Proof.
  revert root notset.
  induction vars as [|v vars IH]; intros root notset Hsorted Hall Hloop Hx Hfound;
    [by apply elem_of_nil in Hx|].
  rewrite fmap_cons, StronglySorted_cons in Hsorted.
  destruct Hsorted as [Hv Hsorted].
  apply Forall_cons in Hall as [[fv Hfv] Hall].
  simpl in Hloop.
  destruct (lookupEnv l (name v) (expand v)) as [valv ok] eqn:Elook.
  destruct ok; simpl in Hloop.
  - rewrite Hfv in Hloop.
    destruct (bind l fv valv) as [e|fv'] eqn:Ebind; [done|].
    pose proof (valid_after_assign v vars root fv' Hv Hall) as Hall'.
    apply elem_of_cons in Hx as [->|Hx].
    + rewrite Elook in Hfound. injection Hfound as <-.
      exists fv, fv'. split; [done|]. split; [done|].
      replace root' with (loadRange l vars (assign (field v) fv' root) notset).1
        by (by rewrite Hloop).
      rewrite loadRange_untouched.
      * apply deref_assign_same. by rewrite Hfv.
      * rewrite Forall_fmap, Forall_forall in Hv.
        intros y Hy _. right. by apply Hv.
    + destruct (IH _ _ Hsorted Hall' Hloop Hx Hfound)
        as (old & new & Hold & Hbind & Hnew).
      exists old, new. split; [|done].
      rewrite <- Hold. symmetry. apply deref_assign_apart.
      rewrite Forall_fmap, Forall_forall in Hv. left. by apply Hv.
  - apply elem_of_cons in Hx as [->|Hx]; [congruence|].
    by apply (IH _ _ Hsorted Hall Hloop Hx Hfound).
Qed.

(** When the loop stops on an error, it has processed the variables before
    the first one whose conversion fails, and that one fails. *)
Lemma loadRange_first_failure l vars root notset root' err :
  StronglySorted before (field <$> vars) ->
  Forall (fun y => is_Some (deref (field y) root)) vars ->
  loadRange l vars root notset = (root', inl err) ->
  exists pre v post names value fv,
    vars = pre ++ v :: post
    /\ loadRange l pre root notset = (root', inr names)
    /\ lookupEnv l (name v) (expand v) = (value, true)
    /\ deref (field v) root' = Some fv
    /\ bind l fv value = inl err.
Proof.
  revert root notset.
  induction vars as [|v vars IH]; intros root notset Hsorted Hall Hloop;
    [done|].
  rewrite fmap_cons, StronglySorted_cons in Hsorted.
  destruct Hsorted as [Hv Hsorted].
  apply Forall_cons in Hall as [[fv Hfv] Hall].
  simpl in Hloop.
  destruct (lookupEnv l (name v) (expand v)) as [valv ok] eqn:Elook.
  destruct ok; simpl in Hloop.
  - rewrite Hfv in Hloop.
    destruct (bind l fv valv) as [e|fv'] eqn:Ebind.
    + injection Hloop as <- <-.
      by exists [], v, vars, notset, valv, fv.
    + pose proof (valid_after_assign v vars root fv' Hv Hall) as Hall'.
      destruct (IH _ _ Hsorted Hall' Hloop)
        as (pre & w & post & names & value & fw & -> & Hpre & Hw & Hfw & Hbind).
      exists (v :: pre), w, post, names, value, fw.
      split; [done|]. split; [|done].
      simpl. by rewrite Elook, Hfv, Ebind.
  - destruct (IH _ _ Hsorted Hall Hloop)
      as (pre & w & post & names & value & fw & -> & Hpre & Hw & Hfw & Hbind).
    exists (v :: pre), w, post, names, value, fw.
    split; [done|]. split; [|done].
    simpl. by rewrite Elook.
Qed.

(** X8: the errors of a call.  A call returns no error, or
    [ErrInvalidArgument], or an error of discovery ([ErrEmptyTagName] or a
    wrapped [ErrInvalidTagOption]), or an error of a conversion
    ([ErrUnsupportedType] or the error of a parser), or a [NotSetError] with
    at least one name; with the first two kinds of error the destination is
    returned as it was. *)
Theorem loadVars_errors l (dst : Argument) (err : error) :
  (loadVars l dst).2 = Some err ->
  (err = ErrInvalidArgument /\ structPtr dst = false /\ (loadVars l dst).1 = dst)
  \/ (discoveryError err /\ (loadVars l dst).1 = dst)
  \/ binderError err
  \/ (exists names, err = NotSetError names /\ names <> []).
Proof.
  unfold loadVars.
  destruct (structPtr dst) eqn:Hptr; simpl; [|intros [= <-]; by left].
  destruct dst as [|v|[root|]]; try done. simpl.
  destruct (parseVars l [] root) as [e|vars] eqn:E; simpl.
  { intros [= <-]. right. left. split; [|done]. by apply parseVars_error in E. }
  destruct (loadRange l vars root []) as [root' [e|notset]] eqn:E'; simpl.
  { intros [= <-]. right. right. left. by apply loadRange_error in E'. }
  destruct notset as [|n notset]; simpl; [done|].
  intros [= <-]. right. right. right. by eexists.
Qed.

(** X9: a found value overwrites what the field held.  When a call returns
    no error or a [NotSetError], the field of every variable that is found in
    the source holds the conversion of the value found: the missing required
    variables are reported without undoing the bindings. *)
Theorem loadVars_overwrites l root vars root' result x value :
  kindOf root Struct = true ->
  parseVars l [] root = inr vars ->
  loadVars l (ArgPtr (Some root)) = (ArgPtr (Some root'), result) ->
  result = None \/ (exists names, result = Some (NotSetError names)) ->
  x ∈ vars ->
  lookupEnv l (name x) (expand x) = (value, true) ->
  exists old new,
    deref (field x) root = Some old
    /\ bind l old value = inr new
    /\ deref (field x) root' = Some new.
Proof.
  intros Hk Hvars Hload Hresult Hx Hfound.
  destruct (parseVars_valid _ _ _ Hvars) as [Hsorted Hall].
  unfold loadVars in Hload. simpl in Hload. rewrite Hk, Hvars in Hload.
  simpl in Hload.
  destruct (loadRange l vars root []) as [r [e|notset]] eqn:Hloop.
  { injection Hload as <- <-. apply loadRange_error in Hloop.
    destruct Hresult as [?|[names [= ->]]]; done. }
  assert (r = root') as -> by (destruct (0 <? length notset); congruence).
  by eapply loadRange_bound.
Qed.

(** X10: the first conversion that fails ends the call.  When a call
    returns an error of a conversion, it is the error of the first found
    variable, in discovery order, whose conversion fails; the variables
    before it have been processed, and the fields of that variable and of
    the variables after it hold what they held before the call. *)
Theorem loadVars_fail_fast l root vars root' err :
  kindOf root Struct = true ->
  parseVars l [] root = inr vars ->
  loadVars l (ArgPtr (Some root)) = (ArgPtr (Some root'), Some err) ->
  binderError err ->
  exists pre v post names value fv,
    vars = pre ++ v :: post
    /\ loadRange l pre root [] = (root', inr names)
    /\ lookupEnv l (name v) (expand v) = (value, true)
    /\ deref (field v) root' = Some fv
    /\ bind l fv value = inl err
    /\ Forall (fun x => deref (field x) root' = deref (field x) root)
         (v :: post).
Proof.
  intros Hk Hvars Hload Herr.
  destruct (parseVars_valid _ _ _ Hvars) as [Hsorted Hall].
  unfold loadVars in Hload. simpl in Hload. rewrite Hk, Hvars in Hload.
  simpl in Hload.
  destruct (loadRange l vars root []) as [r [e|notset]] eqn:Hloop.
  2:{ destruct (0 <? length notset); [|done].
      injection Hload as _ <-. done. }
  injection Hload as -> ->.
  destruct (loadRange_first_failure _ _ _ _ _ _ Hsorted Hall Hloop)
    as (pre & v & post & names & value & fv & -> & Hpre & Hv & Hfv & Hbind).
  exists pre, v, post, names, value, fv.
  repeat split; try done.
  apply Forall_forall. intros x Hx.
  replace root' with (loadRange l pre root []).1 by (by rewrite Hpre).
  apply loadRange_untouched. intros y Hy _. left.
  rewrite fmap_app in Hsorted.
  apply (StronglySorted_app_1_elem_of _ _ _ _ _ Hsorted);
    by apply list_elem_of_fmap_2.
Qed.

End load_extras.

(** ** The destination after a call *)

Section reload_facts.
Context `{GoLib}.

Implicit Types (l : loader) (h : Handle) (f : StructField Value)
  (v root new : Value).

Lemma nestedStruct_withFields G v :
  nestedStruct (withFields G v) = nestedStruct v.
Proof.
  unfold nestedStruct, kindOf.
  by rewrite KindOf_withFields, implements_withFields.
Qed.

(** A conversion never yields a struct that discovery would recurse into. *)
Lemma bind_leaf l fv value new :
  bind l fv value = inr new -> nestedStruct new = false.
Proof.
  unfold bind.
  destruct (kindOf fv Slice && negb (implements_unmarshalerIface fv)).
  - destruct fv as [k y|fs|zero es|t u|t]; simpl; try done.
    destruct (setElems zero _); [done|]. by intros [= <-].
  - destruct fv as [k y|fs|zero es|t u|t]; simpl; try done.
    + destruct k; simpl; try (by intros [= <-]);
        (destruct (strconvParse _ value); [done|by intros [= <-]]).
    + destruct (unmarshalText t value u); [done|].
      intros [= <-]. unfold nestedStruct. simpl. apply andb_false_r.
Qed.

(** Writing a leaf in place of a leaf does not change what discovery
    finds. *)
Lemma parseVars_assign l h root f new :
  fieldAt h root = Some f ->
  nestedStruct (val f) = false ->
  nestedStruct new = false ->
  forall h0, parseVars l h0 (assign h new root) = parseVars l h0 root.
Proof.
  intros Hf Hleaf Hnew. revert root Hf.
  induction h as [|i h IH]; intros root Hf h0; [done|].
  rewrite !parseVars_Fields. unfold discoverFields.
  simpl assign. rewrite Fields_withFields_alter.
  apply parseFields_alter.
  intros f0 Hf0 j.
  simpl in Hf. rewrite Hf0 in Hf.
  rewrite !parseFields_single. cbn [exported val envTag].
  destruct h as [|k h].
  - injection Hf as ->. simpl. by rewrite Hleaf, Hnew.
  - change (assign (k :: h) new (val f0))
      with (withFields
              (alter (fun g => mkField (exported g) (envTag g)
                                 (assign h new (val g))) k) (val f0)).
    rewrite nestedStruct_withFields.
    destruct (negb (exported f0)); [done|].
    destruct (nestedStruct (val f0)); [|done].
    by apply IH.
Qed.

Lemma KindOf_assign h new root f :
  fieldAt h root = Some f -> KindOf (assign h new root) = KindOf root.
Proof.
  destruct h as [|i h]; [done|]. intros _. simpl.
  apply KindOf_withFields.
Qed.

Lemma loadRange_rediscover l vars0 vars root0 root notset :
  parseVars l [] root0 = inr vars0 ->
  vars ⊆ vars0 ->
  (KindOf root = KindOf root0
   /\ forall l2 h0, parseVars l2 h0 root = parseVars l2 h0 root0) ->
  let root' := (loadRange l vars root notset).1 in
  KindOf root' = KindOf root0
  /\ forall l2 h0, parseVars l2 h0 root' = parseVars l2 h0 root0.
Proof.
  intros Hvars0. revert root notset.
  induction vars as [|v vars IH]; intros root notset Hsub Hinv; [done|].
  assert (Hrest : vars ⊆ vars0) by (intros y Hy; apply Hsub; by right).
  simpl.
  destruct (lookupEnv l (name v) (expand v)) as [value ok].
  destruct ok; simpl; [|by apply IH].
  destruct (deref (field v) root) as [fv|] eqn:Hfv; [|done].
  destruct (bind l fv value) as [e|fv'] eqn:Ebind; [done|].
  apply IH; [done|].
  destruct Hinv as [Hkind Hsame].
  assert (Hroot : parseVars l [] root = inr vars0) by (by rewrite Hsame).
  destruct (parseVars_handles _ _ _ _ Hroot) as [_ Hall].
  rewrite Forall_forall in Hall.
  destruct (Hall v) as (r & f & Hr & Hf & _ & Hleaf & _);
    [apply Hsub; by left|].
  simpl in Hr. rewrite <- Hr in Hf.
  split.
  - by rewrite (KindOf_assign _ _ _ _ Hf).
  - intros l2 h0. rewrite <- Hsame.
    apply (parseVars_assign _ _ _ _ _ Hf Hleaf).
    by apply bind_leaf in Ebind.
Qed.

(** X11: a call changes values only: after it, whatever its result, the
    destination is still a struct and discovery finds in it what it found
    before, for any prefix and at any place, so that the destination can be
    loaded again from another source. *)
Theorem loadVars_rediscover l root vars :
  kindOf root Struct = true ->
  parseVars l [] root = inr vars ->
  exists root',
    (loadVars l (ArgPtr (Some root))).1 = ArgPtr (Some root')
    /\ structPtr (ArgPtr (Some root')) = true
    /\ forall l2 h0, parseVars l2 h0 root' = parseVars l2 h0 root.
Proof.
  intros Hk Hvars.
  destruct (loadRange_rediscover l vars vars root root [] Hvars)
    as [Hkind Hsame]; [done..|].
  exists (loadRange l vars root []).1.
  split; [|split; [|done]].
  - unfold loadVars. simpl. rewrite Hk, Hvars. simpl.
    destruct (loadRange l vars root []) as [r [e|notset]]; [done|].
    by destruct (0 <? length notset).
  - simpl. unfold kindOf in *. by rewrite Hkind.
Qed.

(** X12: the names of a [NotSetError] are resolved names: each is the
    prefix of the loader followed by the non-empty name of an annotation,
    and the source does not find it. *)
Theorem NotSetError_names_resolved l (dst : Argument) (names : list string) :
  (loadVars l dst).2 = Some (NotSetError names) ->
  names <> []
  /\ Forall (fun n => exists NAME,
               NAME <> "" /\ n = prefix l +:+ NAME
               /\ (LookupEnv (provider l) n).2 = false) names.
Proof.
  unfold loadVars.
  destruct (structPtr dst) eqn:Hptr; simpl; [|done].
  destruct dst as [|v|[root|]]; try done. simpl.
  destruct (parseVars l [] root) as [e|vars] eqn:Hvars; simpl.
  { intros [= ->]. by apply parseVars_error in Hvars. }
  destruct (loadRange l vars root []) as [root' [e|notset]] eqn:Hloop; simpl.
  { intros [= ->]. by apply loadRange_error in Hloop. }
  destruct notset as [|n notset]; simpl; [done|].
  intros [= <-]. split; [done|].
  apply loadRange_notset in Hloop. simpl in Hloop. rewrite Hloop.
  unfold missing. apply Forall_fmap, Forall_forall.
  intros x [Hx Hin]%list_elem_of_filter.
  apply andb_prop in Hx as [_ Hnot].
  pose proof (parseVars_sound _ _ _ _ Hvars) as Hall.
  rewrite Forall_forall in Hall.
  destruct (Hall _ Hin) as (h & f & _ & _ & Htag).
  destruct (tagVariable_name _ _ _ _ Htag)
    as (tag & NAME & options & _ & _ & Hname & Hx & _).
  exists NAME. simpl. split; [done|]. split; [done|].
  unfold notFound, lookupEnv in Hnot.
  destruct (LookupEnv (provider l) (name x)) as [value []]; [|done].
  simpl in Hnot. by destruct (expand x).
Qed.

End reload_facts.

(** ** Values without placeholders *)

Lemma expandFrom_plain (mapping : string -> string) (s : string) :
  without "$" s = true -> os.Expand s mapping = s.
Proof.
  intros Hs. unfold os.Expand.
  rewrite <- (append_nil_r s) at 1.
  rewrite expandFrom_literal; [by rewrite append_nil_r|].
  unfold without in Hs. clear mapping.
  induction s as [|c s IH]; [done|].
  cbn [allBytes] in *. apply andb_prop in Hs as [Hc Hs].
  rewrite Ascii.eqb_sym in Hc. rewrite Hc. by apply IH.
Qed.

(** X13: [lookupEnv] answers a key the source does not find with the empty
    string and [false], whatever text the source returns with it, and a
    found value without dollar sign as it is, with or without [expand]. *)
Theorem lookupEnv_plain (l : loader) (key value : string) (ok expand : bool) :
  LookupEnv (provider l) key = (value, ok) ->
  (ok = false -> lookupEnv l key expand = ("", false))
  /\ (ok = true -> without "$" value = true ->
      lookupEnv l key expand = (value, true)).
Proof.
  intros Hkey. unfold lookupEnv. rewrite Hkey.
  split; intros ->; simpl; [done|].
  intros Hplain. destruct expand; simpl; [|done].
  by rewrite expandFrom_plain.
Qed.

(** ** The fields that a call leaves alone *)

Section frame_facts.
Context `{GoLib}.

(** The handle of a field that discovery passes over parts from the handle
    of every field that it emits. *)
Lemma ignored_apart h r v f f' :
  reached h v f -> ignored f -> discoverable r v f' ->
  before r h \/ before h r.
Proof.
  intros Hreach Hign. revert r.
  induction Hreach as [i v f Hi|i h v g f Hi Hexp Hnest _ IH]; intros r Hdisc.
  - inversion Hdisc as [j ? ? Hj Hb|j r' ? g' ? Hj Hexp' Hnest' Hin]; subst.
    + destruct (decide (j = i)) as [->|Hne].
      * rewrite Hi in Hj. injection Hj as ->.
        destruct Hb as (Hexp & Hnest & Htag).
        destruct Hign as [?|[_ Hnone]]; [congruence|].
        rewrite Hnone in Htag. by destruct Htag.
      * destruct (decide (j < i)); [left|right]; apply before_heads; lia.
    + destruct (decide (j = i)) as [->|Hne].
      * rewrite Hi in Hj. injection Hj as ->.
        destruct Hign as [?|[? _]]; congruence.
      * destruct (decide (j < i)); [left|right]; apply before_heads; lia.
  - inversion Hdisc as [j ? ? Hj Hb|j r' ? g' ? Hj Hexp' Hnest' Hin]; subst.
    + destruct (decide (j = i)) as [->|Hne].
      * rewrite Hi in Hj. injection Hj as ->.
        destruct Hb as (_ & Hleaf & _). congruence.
      * destruct (decide (j < i)); [left|right]; apply before_heads; lia.
    + destruct (decide (j = i)) as [->|Hne].
      * rewrite Hi in Hj. injection Hj as ->.
        destruct (IH Hign _ Hin); [left|right]; by apply before_cons.
      * destruct (decide (j < i)); [left|right]; apply before_heads; lia.
Qed.

(** X14: a call leaves alone the fields that discovery passes over: a field
    that is not exported, or a leaf field without annotation, reached
    through settable nested structs, holds after the call, whatever its
    result, the value it held before. *)
Theorem loadVars_ignored_untouched (l : loader) (root : Value) (h : Handle)
    (f : StructField Value) :
  kindOf root Struct = true ->
  reached h root f ->
  ignored f ->
  exists root',
    (loadVars l (ArgPtr (Some root))).1 = ArgPtr (Some root')
    /\ deref h root' = deref h root.
Proof.
  intros Hk Hreach Hign.
  unfold loadVars. simpl. rewrite Hk. simpl.
  destruct (parseVars l [] root) as [e|vars] eqn:Hvars; simpl;
    [by exists root|].
  exists (loadRange l vars root []).1.
  split.
  - destruct (loadRange l vars root []) as [r [e|notset]]; [done|].
    by destruct (0 <? length notset).
  - apply loadRange_untouched. intros x Hx _.
    pose proof (parseVars_sound _ _ _ _ Hvars) as Hall.
    rewrite Forall_forall in Hall.
    destruct (Hall _ Hx) as (r & f' & Hr & Hdisc & _).
    simpl in Hr. rewrite Hr.
    exact (ignored_apart h r root f f' Hreach Hign Hdisc).
Qed.

End frame_facts.

(** ** Instances of the further properties *)

Lemma parseVars_variables_witness :
  name (mkVariable "ADDR" false true [1]) <> "".
Proof.
  assert (Hin : mkVariable "ADDR" false true [1] ∈ configVars)
    by (apply list_elem_of_further, list_elem_of_here).
  destruct (parseVars_variables (H := ascii_lib.lib) example.l []
              example.config configVars _ eq_refl Hin)
    as (h & f & tag & NAME & options & _ & _ & _ & _ & _ & _ & _ & Hname).
  exact Hname.
Defined.

Lemma parseVars_complete_witness :
  NoDup (field <$> configVars)
  /\ exists x,
       x ∈ configVars /\ field x = [2; 1]
       /\ tagVariable (H := ascii_lib.lib) example.l [2; 1]
            (Some "HOST,required") = inr [x].
Proof.
  apply (parseVars_complete (H := ascii_lib.lib) example.l []
           example.config configVars [2; 1]
           (mkField true (Some "HOST,required")
              (VScalar KString (SString "localhost"))) eq_refl).
  eapply (discoverable_nested 2 [1]); [reflexivity..|].
  apply discoverable_field; [reflexivity|].
  split; [reflexivity|]. split; [reflexivity|]. by eexists.
Defined.

Lemma parseVars_tag_parts_witness :
  parseVars (H := ascii_lib.lib) example.l [] example.config = inr configVars.
Proof.
  rewrite (parseVars_tag_parts (H := ascii_lib.lib) example.l []
             example.config
             (take 5 (Fields example.config))
             (mkField true (Some "KEY,required") (VScalar KString (SString "")))
             (drop 6 (Fields example.config))
             "KEY" ["required"] eq_refl eq_refl eq_refl eq_refl).
  - reflexivity.
  - repeat constructor.
Defined.

Lemma loadVars_errors_witness :
  structPtr (ArgValue example.config) = false
  /\ (loadVars (H := ascii_lib.lib) example.l (ArgValue example.config)).1
     = ArgValue example.config.
Proof.
  destruct (loadVars_errors (H := ascii_lib.lib) example.l
              (ArgValue example.config) ErrInvalidArgument eq_refl)
    as [(_ & Hptr & Hdst)|[[Hdisc _]|[Hbind|(names & Hnames & _)]]];
    [by split|done|done|done].
Defined.

Lemma loadVars_overwrites_witness :
  exists root' new,
    (loadVars (H := ascii_lib.lib) example.l
       (ArgPtr (Some example.config))).1 = ArgPtr (Some root')
    /\ bind (H := ascii_lib.lib) example.l (VScalar (KInt 64) (SInt 0)) "8080"
       = inr new
    /\ deref [0] root' = Some new.
Proof.
  assert (Hin : mkVariable "PORT" false false [0] ∈ configVars)
    by apply list_elem_of_here.
  edestruct (loadVars_overwrites (H := ascii_lib.lib) example.l
               example.config configVars)
    as (old & new & Hold & Hbind & Hnew);
    [reflexivity
    |reflexivity
    |vm_compute; reflexivity
    |right; by eexists
    |exact Hin
    |reflexivity
    |].
  eexists _, new. split; [vm_compute; reflexivity|].
  injection Hold as <-. split; [exact Hbind|exact Hnew].
Defined.

Lemma loadVars_fail_fast_witness :
  exists root' pre v post,
    loadVars (H := ascii_lib.lib) (newLoader (Map typoSource)
                                     [WithSliceSeparator ";"])
      (ArgPtr (Some example.config))
    = (ArgPtr (Some root'), Some (ConversionError "invalid syntax"))
    /\ configVars = pre ++ v :: post
    /\ Forall (fun x => deref (field x) root'
                        = deref (field x) example.config) (v :: post).
Proof.
  edestruct (loadVars_fail_fast (H := ascii_lib.lib)
               (newLoader (Map typoSource) [WithSliceSeparator ";"])
               example.config configVars)
    as (pre & v & post & names & value & fv & Hsplit & _ & _ & _ & _ & Hrest);
    [reflexivity|reflexivity|vm_compute; reflexivity|exact I|].
  eexists _, pre, v, post.
  split; [vm_compute; reflexivity|]. split; [exact Hsplit|exact Hrest].
Defined.

Lemma loadVars_rediscover_witness :
  exists root',
    (loadVars (H := ascii_lib.lib) example.l
       (ArgPtr (Some example.config))).1 = ArgPtr (Some root')
    /\ parseVars (H := ascii_lib.lib) example.l [] root' = inr configVars.
Proof.
  destruct (loadVars_rediscover (H := ascii_lib.lib) example.l example.config
              configVars eq_refl eq_refl) as (root' & Hload & _ & Hsame).
  exists root'. split; [exact Hload|]. by rewrite Hsame.
Defined.

Lemma NotSetError_names_resolved_witness :
  Forall (fun n => exists NAME,
            NAME <> "" /\ n = prefix example.l +:+ NAME
            /\ (LookupEnv (provider example.l) n).2 = false)
    ["HOST"; "KEY"].
Proof.
  by destruct (NotSetError_names_resolved (H := ascii_lib.lib) example.l
                 (ArgPtr (Some example.config)) ["HOST"; "KEY"] eq_refl)
    as [_ Hnames].
Defined.

Lemma lookupEnv_plain_witness :
  lookupEnv example.l "PORT" true = ("8080", true)
  /\ lookupEnv example.l "HOST" true = ("", false).
Proof.
  split.
  - by destruct (lookupEnv_plain example.l "PORT" "8080" true true eq_refl)
      as [_ Hfound]; apply Hfound.
  - by destruct (lookupEnv_plain example.l "HOST" "" false true eq_refl)
      as [Hmissing _]; apply Hmissing.
Defined.

Lemma loadVars_ignored_untouched_witness :
  exists root',
    (loadVars (H := ascii_lib.lib) example.l
       (ArgPtr (Some example.config))).1 = ArgPtr (Some root')
    /\ deref [6] root' = Some (VScalar KString (SString "")).
Proof.
  destruct (loadVars_ignored_untouched (H := ascii_lib.lib) example.l
              example.config [6]
              (mkField false (Some ",required") (VScalar KString (SString ""))))
    as (root' & Hload & Hsame);
    [reflexivity|by apply reached_field|by left|].
  exists root'. split; [exact Hload|]. by rewrite Hsame.
Defined.
